(** * animebot: a shallow embedding of [animebot.py]

    The news bot scrapes a homepage, enriches today's entries with an image
    and a summary, and posts every entry whose title is not yet in the
    ledger file [posted_titles.json].

    Python strings are sequences of Unicode code points and [len] counts
    code points, so a string is a [list N] here.  External collaborators
    (HTTP, the HTML parser, the file system, the thread pool) are explicit:
    the network is an oracle that sees the history of the run, the ledger
    file is part of the state, and exceptions are values. *)

From Stdlib Require Import ZArith NArith String Ascii List Lia.
From stdpp Require Import base list gmap.

Local Open Scope Z_scope.

(** ** Python strings *)

Abbreviation pystr := (list N).

(** An ASCII literal as a Python string. *)
Definition str (s : string) : pystr :=
  List.map N_of_ascii (list_ascii_of_string s).

(** [len(s)] *)
Definition len {A} (s : list A) : Z := Z.of_nat (length s).

(** [s[:k]]: a negative bound counts from the end, and bounds are clamped. *)
Definition slice_to {A} (s : list A) (k : Z) : list A :=
  if k <? 0 then take (Z.to_nat (len s + k)) s else take (Z.to_nat k) s.

(** [not s] is false exactly on the non-empty string. *)
Definition truthy (s : pystr) : bool :=
  match s with [] => false | _ :: _ => true end.

Fixpoint startswith (prefix s : pystr) : bool :=
  match prefix, s with
  | [], _ => true
  | p :: prefix', c :: s' => (p =? c)%N && startswith prefix' s'
  | _ :: _, [] => false
  end.

(** [text.replace(old, new)] for a pattern [old] of one character. *)
Definition replace_char (old : N) (new : pystr) (text : pystr) : pystr :=
  flat_map (fun c => if (c =? old)%N then new else [c]) text.

(** [str.isspace] on one code point: the characters [str.strip()] removes. *)
Definition isspace (c : N) : bool :=
  ((9 <=? c) && (c <=? 13) || (28 <=? c) && (c <=? 32)
   || (c =? 133) || (c =? 160) || (c =? 5760)
   || (8192 <=? c) && (c <=? 8202)
   || (c =? 8232) || (c =? 8233) || (c =? 8239) || (c =? 8287)
   || (c =? 12288))%N.

Fixpoint lstrip (s : pystr) : pystr :=
  match s with
  | c :: s' => if isspace c then lstrip s' else s
  | [] => []
  end.

Definition rstrip (s : pystr) : pystr := rev (lstrip (rev s)).

(** [s.strip()] *)
Definition strip (s : pystr) : pystr := rstrip (lstrip s).

(** ** Values handed to [escape_html] *)

Inductive pyval :=
| PyNone
| PyStr (s : pystr)
| PyOther.   (* any object that is not a [str] *)

Definition amp : N := 38.
Definition lt : N := 60.
Definition gt : N := 62.

Definition escape_html (text : pyval) : pystr :=
  match text with
  | PyStr ((_ :: _) as s) =>
      replace_char gt (str "&gt;")
        (replace_char lt (str "&lt;")
           (replace_char amp (str "&amp;") s))
  | _ => []
  end.

(** What the three replacements do to one character. *)
Definition escape_char (c : N) : pystr :=
  if (c =? amp)%N then str "&amp;"
  else if (c =? lt)%N then str "&lt;"
  else if (c =? gt)%N then str "&gt;"
  else [c].

(** ** The caption (send_to_telegram, formatting part) *)

Definition signature : pystr := 127809%N :: str "| @TheAnimeTimes_acn".

(** The f-string of the caption: bold title and a lightning sign, a line of
    seventeen U+FE4F, the summary, a line of seventeen U+FE4B, the
    signature. *)
Definition format_caption (safe_title safe_summary : pystr) : pystr :=
  str "<b>" ++ safe_title ++ str "</b> " ++ [9889%N; 10%N]
  ++ repeat 65103%N 17 ++ [10%N]
  ++ safe_summary ++ [10%N]
  ++ repeat 65099%N 17 ++ [10%N]
  ++ signature.

Definition build_caption (title summary : pystr) : pystr :=
  let safe_title := escape_html (PyStr title) in
  let safe_summary :=
    if truthy summary then escape_html (PyStr summary)
    else str "No summary available" in
  let caption := format_caption safe_title safe_summary in
  if 1024 <? len caption then
    let safe_summary :=
      slice_to safe_summary (1024 - len safe_title - 50) ++ str "..." in
    format_caption safe_title safe_summary
  else caption.

(** ** The summary of a first paragraph (fetch_article_details, line 146) *)

(** A paragraph tag, as the strings below it in document order. *)
Definition paragraph := list pystr.

(** [tag.text], that is [get_text()]: the strings joined. *)
Definition text (p : paragraph) : pystr := concat p.

(** [tag.get_text(strip=True)]: each string stripped, empty ones dropped. *)
Definition get_text_strip (p : paragraph) : pystr :=
  concat (List.filter truthy (List.map strip p)).

Definition paragraph_summary (first_paragraph : paragraph) : pystr :=
  if 300 <? len (text first_paragraph)
  then slice_to (get_text_strip first_paragraph) 300 ++ str "..."
  else text first_paragraph.


(** ** Exceptions and the state of a run *)

Inductive exn :=
| RequestException       (* requests: connection error, timeout, HTTP status *)
| JSONDecodeError
| UnicodeDecodeError     (* a ValueError, as JSONDecodeError, but not one *)
| OSError
| TypeError
| KeyError
| OverflowError          (* datetime: date value out of range *)
| ParserRejectedMarkup   (* bs4: the parser gave up on the markup *)
| TimeoutError           (* concurrent.futures: future.result(timeout=...) *)
| RetryError.            (* tenacity: attempts exhausted *)

Inductive outcome (A : Type) :=
| Return (a : A)
| Raise (e : exn).
Arguments Return {A} a.
Arguments Raise {A} e.

(** What the run does to the outside, in order.  [EvSubmit] marks the
    submission of an entry to the enricher, [EvPublish] the call of the
    publisher with its three arguments. *)
Inductive event :=
| EvGetFeed
| EvSubmit (title : pystr)
| EvGetDetail (url : pystr)
| EvPublish (title : pystr) (image_url : option pystr) (summary : pystr)
| EvProbe (url : pystr)
| EvSendPhoto (title photo caption : pystr) (ok : bool)
| EvSendMessage (title caption : pystr) (ok : bool)
| EvWrite (titles : list pystr)
| EvSleep (seconds : Z).

(** The file [posted_titles.json], in the shapes the loader tells apart.
    The bot itself only ever writes an array of strings. *)
Inductive ledger_file :=
| Missing                        (* os.path.exists is false *)
| Unreadable                     (* open or read raises OSError *)
| Undecodable                    (* the bytes are not UTF-8 *)
| Malformed                      (* json.load raises JSONDecodeError: text
                                    that is not JSON, an empty file *)
| JsonScalar                     (* a JSON number, null or boolean *)
| JsonTitles (l : list pystr).   (* a JSON array of strings *)

(** What becomes of [open(POSTED_TITLES_FILE, "w")] followed by
    [json.dump]: both succeed, the open raises and the file stays as it was,
    or the open succeeds, which empties the file, and the dump raises. *)
Inductive writability :=
| Writable
| ReadOnly
| FailsAfterOpen.

Record world := World {
  ledger : ledger_file;
  writable : writability;
  trace : list event
}.

(** A computation: state passing with exceptions. *)
Definition M (A : Type) : Type := world -> outcome A * world.

Definition ret {A} (a : A) : M A := fun w => (Return a, w).

Definition raise {A} (e : exn) : M A := fun w => (Raise e, w).

Definition bind {A B} (m : M A) (k : A -> M B) : M B :=
  fun w =>
    match m w with
    | (Return a, w') => k a w'
    | (Raise e, w') => (Raise e, w')
    end.

Notation "'do' x <- m ; k" := (bind m (fun x => k))
  (at level 10, x name, m at level 100, k at level 200).
Notation "'exec' m ; k" := (bind m (fun _ => k))
  (at level 10, m at level 100, k at level 200).

(** [try: body  except <handled>: handler] *)
Definition try_except {A} (body : M A) (handled : exn -> bool) (handler : M A)
  : M A :=
  fun w =>
    match body w with
    | (Raise e, w') => if handled e then handler w' else (Raise e, w')
    | r => r
    end.

Definition is_RequestException (e : exn) : bool :=
  match e with RequestException => true | _ => false end.

Definition is_JSONDecodeError (e : exn) : bool :=
  match e with JSONDecodeError => true | _ => false end.

(** [except Exception]: every exception of this model. *)
Definition is_Exception (e : exn) : bool := true.

Definition emit (e : event) : M unit :=
  fun w => (Return tt, World (ledger w) (writable w) (trace w ++ [e])).

Definition history : M (list event) := fun w => (Return (trace w), w).

(** [time.sleep(seconds)] *)
Definition sleep (seconds : Z) : M unit := emit (EvSleep seconds).

(** ** The network and the documents it serves *)

(** [session.get]/[session.post]: a [RequestException] or a response, whose
    status [raise_for_status] then checks. *)
Inductive response (A : Type) :=
| ConnectionFailed
| Status (ok : bool) (body : A).
Arguments ConnectionFailed {A}.
Arguments Status {A} ok body.

(** [BeautifulSoup(response.text, "html.parser")] *)
Inductive markup (A : Type) :=
| Rejected
| Parsed (doc : A).
Arguments Rejected {A}.
Arguments Parsed {A} doc.

Record h3_tag := {
  h3_text : pystr;                    (* get_text(strip=True) *)
  h3_link : option (option pystr)     (* find("a") and its href *)
}.

(** A news card of the homepage. *)
Record article := {
  h3 : option h3_tag;                 (* article.find("h3") *)
  time_tag : option (option pystr);   (* find("time") and its datetime *)
  thumbnail : option (option pystr)   (* the thumbnail div and its data-src *)
}.

(** An article page: the first paragraph of the div of class "meat" and of
    the div of class "content", where they exist. *)
Record detail_doc := {
  meat : option (option paragraph);
  content : option (option paragraph)
}.

(** The answers of the outside world, given the history of the run. *)
Record network := {
  get_feed : list event -> response (markup (list article));
  get_detail : list event -> pystr -> response (markup detail_doc);
  get_image : list event -> pystr -> response pystr;   (* content-type *)
  post_photo : list event -> pystr -> pystr -> response unit;
  post_message : list event -> pystr -> response unit
}.

(** [datetime.fromisoformat(s).astimezone(local_tz).date()]: [fromisoformat]
    raises [ValueError] on a string that is no ISO date, [astimezone] raises
    [OverflowError] where the local time leaves the years 1 to 9999. *)
Inductive date_result :=
| NotIso
| OutOfRange
| LocalDate (d : Z).

(** Module-level configuration: the local date at start-up and the local
    date of a [datetime] attribute. *)
Record config := {
  today_local : Z;
  local_date : pystr -> date_result
}.

Definition DEBUG_MODE : bool := false.
Definition BASE_URL : pystr := str "https://www.animenewsnetwork.com".

(** ** The ledger *)

(** [json.load(file)] on the opened ledger, then [set(...)]. *)
Definition read_ledger : M (gset pystr) :=
  fun w =>
    match ledger w with
    | Missing | Unreadable => (Raise OSError, w)
    | Undecodable => (Raise UnicodeDecodeError, w)
    | Malformed => (Raise JSONDecodeError, w)
    | JsonScalar => (Raise TypeError, w)
    | JsonTitles l => (Return (list_to_set l), w)
    end.

Definition path_exists : M bool :=
  fun w => (Return (match ledger w with Missing => false | _ => true end), w).

Definition load_posted_titles : M (gset pystr) :=
  try_except
    (do there <- path_exists;
     if there then read_ledger else ret ∅)
    is_JSONDecodeError
    (ret ∅).

(** [open(POSTED_TITLES_FILE, "w")] and [json.dump(list(titles), file)].
    The file is kept as the titles written, which is what [json.load] gives
    back for titles without surrogate code points (a surrogate pair would
    come back as one character). *)
Definition write_ledger (titles : list pystr) : M unit :=
  fun w =>
    match writable w with
    | Writable =>
        (Return tt,
         World (JsonTitles titles) (writable w) (trace w ++ [EvWrite titles]))
    | ReadOnly => (Raise OSError, w)
    | FailsAfterOpen => (Raise OSError, World Malformed (writable w) (trace w))
    end.

Definition save_posted_title (title : pystr) : M unit :=
  try_except
    (do titles <- load_posted_titles;
     write_ledger (elements (titles ∪ {[title]})))
    is_Exception
    (ret tt).

(** ** tenacity's [@retry(stop=stop_after_attempt(n), wait=...)] *)

(** [wait_exponential(multiplier, min, max)] after the given attempt. *)
Definition wait_exponential (multiplier min max attempt_number : Z) : Z :=
  Z.max (Z.max 0 min) (Z.min (multiplier * 2 ^ (attempt_number - 1)) max).

(** The decorated function is called again while it raises; when the last
    allowed attempt raises too, tenacity raises [RetryError]. *)
Fixpoint attempts {A} (left : nat) (attempt_number : Z) (wait : Z -> Z)
    (f : M A) : M A :=
  match left with
  | O => raise RetryError
  | S left' =>
      fun w =>
        match f w with
        | (Return a, w') => (Return a, w')
        | (Raise _, w') =>
            match left' with
            | O => (Raise RetryError, w')
            | S _ =>
                (exec sleep (wait attempt_number);
                 attempts left' (attempt_number + 1) wait f) w'
            end
        end
  end.

Definition retry {A} (stop_after_attempt : nat) (wait : Z -> Z) (f : M A)
  : M A :=
  attempts stop_after_attempt 1 wait f.

(** ** Entries *)

Record enrichment := {
  image : option pystr;
  summary : pystr
}.

(** A dict of [news_list].  [details] is [None] while the keys "image" and
    "summary" are not set. *)
Record news := {
  title : pystr;
  article_url : option pystr;
  art : article;
  details : option enrichment
}.

Definition set_details (result : enrichment) (n : news) : news :=
  {| title := title n; article_url := article_url n; art := art n;
     details := Some result |}.

(** How the thread pool behaved in one run: the order in which the tasks
    ran to their end, and the futures whose [result(timeout=10)] gave up. *)
Record schedule := {
  completion : list nat;
  timed_out : nat -> bool
}.

(** Every task ends before the pool is left: the tasks the order names come
    first, the others follow. *)
Definition completion_order (s : schedule) (n : nat) : list nat :=
  let first := remove_dups (filter (λ i, i < n)%nat (completion s)) in
  first ++ list_difference (seq 0 n) first.

Definition succeeded {A} (r : response A) : bool :=
  match r with Status true _ => true | _ => false end.

(** [session.get]/[session.post] on a network answer: raises on a transport
    failure, else gives the status and the body. *)
Definition request {A} (r : response A) : M (bool * A) :=
  match r with
  | ConnectionFailed => raise RequestException
  | Status ok body => ret (ok, body)
  end.

(** [response.raise_for_status()] *)
Definition raise_for_status {A} (r : bool * A) : M unit :=
  if fst r then ret tt else raise RequestException.

(** [BeautifulSoup(response.text, "html.parser")] *)
Definition BeautifulSoup {A} (r : bool * markup A) : M A :=
  match snd r with
  | Rejected => raise ParserRejectedMarkup
  | Parsed doc => ret doc
  end.

Section Bot.

Variable net : network.
Variable cfg : config.

Definition session_get_feed : M (bool * markup (list article)) :=
  do h <- history;
  exec emit EvGetFeed;
  request (get_feed net h).

Definition session_get_detail (url : pystr) : M (bool * markup detail_doc) :=
  do h <- history;
  exec emit (EvGetDetail url);
  request (get_detail net h url).

Definition session_get_image (url : pystr) : M (bool * pystr) :=
  do h <- history;
  exec emit (EvProbe url);
  request (get_image net h url).

Definition session_post_photo (title photo caption : pystr) : M (bool * unit) :=
  do h <- history;
  let r := post_photo net h photo caption in
  exec emit (EvSendPhoto title photo caption (succeeded r));
  request r.

Definition session_post_message (title caption : pystr) : M (bool * unit) :=
  do h <- history;
  let r := post_message net h caption in
  exec emit (EvSendMessage title caption (succeeded r));
  request r.

Definition validate_image_url (image_url : option pystr) : M bool :=
  match image_url with
  | Some ((_ :: _) as image_url) =>
      try_except
        (do response <- session_get_image image_url;
         exec raise_for_status response;
         let content_type := snd response in
         if negb (startswith (str "image/") content_type)
         then ret false
         else ret true)
        is_RequestException
        (ret false)
  | _ => ret false
  end.

(** One call of the undecorated [fetch_anime_news]: the loop over the news
    cards, then the function body. *)
Fixpoint scan_articles (all_articles : list article) (news_list : list news)
  : M (list news) :=
  match all_articles with
  | [] => ret news_list
  | article :: rest =>
      match h3 article, time_tag article with
      | Some title_tag, Some date_tag =>
          let title := h3_text title_tag in
          match date_tag with
          | None => raise KeyError                 (* date_tag["datetime"] *)
          | Some date_str =>
              match local_date cfg date_str with
              | NotIso => scan_articles rest news_list   (* ValueError *)
              | OutOfRange => raise OverflowError
              | LocalDate news_date =>
                  if DEBUG_MODE || (news_date =? today_local cfg) then
                    match h3_link title_tag with
                    | Some None => raise KeyError      (* link['href'] *)
                    | Some (Some href) =>
                        scan_articles rest
                          (news_list ++
                           [{| title := title;
                               article_url := Some (BASE_URL ++ href);
                               art := article; details := None |}])
                    | None =>
                        scan_articles rest
                          (news_list ++
                           [{| title := title; article_url := None;
                               art := article; details := None |}])
                    end
                  else scan_articles rest news_list
              end
          end
      | _, _ => scan_articles rest news_list
      end
  end.

Definition fetch_anime_news_once : M (list news) :=
  try_except
    (do response <- session_get_feed;
     exec raise_for_status response;
     do all_articles <- BeautifulSoup response;
     scan_articles all_articles [])
    is_RequestException
    (ret []).

Definition fetch_anime_news : M (list news) :=
  retry 3 (wait_exponential 1 4 10) fetch_anime_news_once.

(** One call of the undecorated [fetch_article_details]. *)
Definition fetch_article_details_once (article_url : option pystr)
    (article : article) : M enrichment :=
  let image_url :=
    match thumbnail article with
    | Some (Some ((_ :: _) as img_url)) =>
        Some (if negb (startswith (str "http") img_url)
              then BASE_URL ++ img_url else img_url)
    | _ => None
    end in
  let summary := str "No summary available." in
  do summary <-
    match article_url with
    | Some ((_ :: _) as article_url) =>
        try_except
          (do article_response <- session_get_detail article_url;
           exec raise_for_status article_response;
           do article_soup <- BeautifulSoup article_response;
           let content_div :=
             match meat article_soup with
             | Some div => Some div
             | None => content article_soup
             end in
           match content_div with
           | Some (Some first_paragraph) =>
               ret (paragraph_summary first_paragraph)
           | _ => ret summary
           end)
          is_RequestException
          (ret summary)
    | _ => ret summary
    end;
  ret {| image := image_url; summary := summary |}.

Definition fetch_article_details (article_url : option pystr)
    (article : article) : M enrichment :=
  retry 3 (wait_exponential 1 4 10)
    (fetch_article_details_once article_url article).

(** The worker threads: the tasks run in the order given, and each future
    keeps what its task returned or raised. *)
Fixpoint run_workers (order : list nat) (tasks : list (M enrichment))
    (futures : gmap nat (outcome enrichment))
  : M (gmap nat (outcome enrichment)) :=
  match order with
  | [] => ret futures
  | k :: order' =>
      match tasks !! k with
      | None => run_workers order' tasks futures
      | Some task =>
          fun w =>
            match task w with
            | (r, w') => run_workers order' tasks (<[k := r]> futures) w'
            end
      end
  end.

(** [future.result(timeout=10)] of the [k]th future. *)
Definition future_result (s : schedule)
    (futures : gmap nat (outcome enrichment)) (k : nat) : M enrichment :=
  if timed_out s k then raise TimeoutError
  else match futures !! k with
       | Some (Return result) => ret result
       | Some (Raise e) => raise e
       | None => raise TimeoutError
       end.

Definition failed_details : enrichment :=
  {| image := None; summary := str "Failed to fetch summary." |}.

(** [for future in futures]: the [k]th future belongs to the dict at
    position [i] of [news_list], which is updated in place. *)
Fixpoint collect (s : schedule) (futures : gmap nat (outcome enrichment))
    (k : nat) (articles_to_fetch : list (nat * news)) (news_list : list news)
  : M (list news) :=
  match articles_to_fetch with
  | [] => ret news_list
  | (i, _) :: rest =>
      do result <-
        try_except (future_result s futures k) is_Exception
          (ret failed_details);
      collect s futures (S k) rest (alter (set_details result) i news_list)
  end.

Fixpoint submit_all (articles_to_fetch : list (nat * news)) : M unit :=
  match articles_to_fetch with
  | [] => ret tt
  | (_, n) :: rest => exec emit (EvSubmit (title n)); submit_all rest
  end.

(** [articles_to_fetch] holds dicts of [news_list] itself, so each one comes
    with its position in [news_list]. *)
Definition fetch_selected_articles (s : schedule) (news_list : list news)
  : M (list news) :=
  do posted_titles <- load_posted_titles;
  let articles_to_fetch :=
    filter (λ p : nat * news, title (snd p) ∉ posted_titles)
      (imap pair news_list) in
  exec submit_all articles_to_fetch;
  let tasks :=
    List.map
      (fun p => fetch_article_details (article_url (snd p)) (art (snd p)))
      articles_to_fetch in
  do futures <-
    run_workers (completion_order s (length tasks)) tasks ∅;
  collect s futures 0 articles_to_fetch news_list.

Definition send_to_telegram (title : pystr) (image_url : option pystr)
    (summary : pystr) : M unit :=
  let caption := build_caption title summary in
  exec emit (EvPublish title image_url summary);
  do valid <- validate_image_url image_url;
  do posted <-
    match image_url, valid with
    | Some photo, true =>
        try_except
          (do response <- session_post_photo title photo caption;
           exec raise_for_status response;
           exec save_posted_title title;
           ret true)
          is_RequestException
          (ret false)
    | _, _ => ret false
    end;
  if posted : bool then ret tt
  else
    try_except
      (do response <- session_post_message title caption;
       exec raise_for_status response;
       save_posted_title title)
      is_RequestException
      (ret tt).

(** [for news in news_list] of [run_once]. *)
Fixpoint publish_all (news_list : list news) : M unit :=
  match news_list with
  | [] => ret tt
  | n :: rest =>
      do posted_titles <- load_posted_titles;
      exec (if bool_decide (title n ∉ posted_titles) then
              match details n with
              | None => raise KeyError          (* news["image"] *)
              | Some d =>
                  exec send_to_telegram (title n) (image d) (summary d);
                  sleep 2
              end
            else ret tt);
      publish_all rest
  end.

Definition run_once (s : schedule) : M unit :=
  do news_list <- fetch_anime_news;
  match news_list with
  | [] => ret tt
  | _ :: _ =>
      do news_list <- fetch_selected_articles s news_list;
      publish_all news_list
  end.

End Bot.

(** ** Vocabulary of the statements *)

(** The set [load_posted_titles] finds in a ledger file, where it finds
    one. *)
Definition titles_of (f : ledger_file) : option (gset pystr) :=
  match f with
  | Missing | Malformed => Some ∅
  | JsonTitles l => Some (list_to_set l)
  | Unreadable | Undecodable | JsonScalar => None
  end.

Definition load_error (f : ledger_file) : exn :=
  match f with
  | JsonScalar => TypeError
  | Undecodable => UnicodeDecodeError
  | _ => OSError
  end.

(** The list [save_posted_title] writes, where it writes. *)
Definition saved (t : pystr) (f : ledger_file) (wr : writability)
  : option (list pystr) :=
  match titles_of f, wr with
  | Some P, Writable => Some (elements (P ∪ {[t]}))
  | _, _ => None
  end.

Definition save_events (t : pystr) (f : ledger_file) (wr : writability)
  : list event :=
  match saved t f wr with Some l => [EvWrite l] | None => [] end.

(** The ledger file [save_posted_title] leaves. *)
Definition save_ledger (t : pystr) (f : ledger_file) (wr : writability)
  : ledger_file :=
  match titles_of f, wr with
  | Some P, Writable => JsonTitles (elements (P ∪ {[t]}))
  | Some _, FailsAfterOpen => Malformed
  | _, _ => f
  end.

(** The entry an event is about. *)
Definition event_title (e : event) : option pystr :=
  match e with
  | EvSubmit t | EvPublish t _ _ | EvSendPhoto t _ _ _ | EvSendMessage t _ _ =>
      Some t
  | _ => None
  end.

(** The transport call of an event: the title it delivers and whether the
    transport accepted it. *)
Definition delivery (e : event) : option (pystr * bool) :=
  match e with
  | EvSendPhoto t _ _ ok | EvSendMessage t _ ok => Some (t, ok)
  | _ => None
  end.

(** The titles of the transport calls, in order. *)
Definition transport_calls (evs : list event) : list pystr :=
  omap (λ e, fst <$> delivery e) evs.

(** The title of a transport call that the transport accepted. *)
Definition accepted (e : event) : option pystr :=
  match e with
  | EvSendPhoto t _ _ true | EvSendMessage t _ true => Some t
  | _ => None
  end.

(** Some transport call for [t] was accepted. *)
Definition delivered (t : pystr) (evs : list event) : bool :=
  existsb (λ e, bool_decide (accepted e = Some t)) evs.

Definition is_write (e : event) : bool :=
  match e with EvWrite _ => true | _ => false end.

(** What one call of the publisher does, transport call by transport call:
    after a valid probe the photo goes out and, when the photo is refused,
    the text; without a valid image the text alone.  The ledger is written
    behind the accepted call only. *)
Inductive send_events (t : pystr) (img : option pystr) (sum : pystr)
    (f : ledger_file) (wr : writability) : list event -> Prop :=
| sent_photo url :
    img = Some url ->
    send_events t img sum f wr
      (EvPublish t img sum :: EvProbe url
       :: EvSendPhoto t url (build_caption t sum) true
       :: save_events t f wr)
| sent_text_after_photo url ok :
    img = Some url ->
    send_events t img sum f wr
      (EvPublish t img sum :: EvProbe url
       :: EvSendPhoto t url (build_caption t sum) false
       :: EvSendMessage t (build_caption t sum) ok
       :: (if ok then save_events t f wr else []))
| sent_text_after_probe url ok :
    img = Some url ->
    send_events t img sum f wr
      (EvPublish t img sum :: EvProbe url
       :: EvSendMessage t (build_caption t sum) ok
       :: (if ok then save_events t f wr else []))
| sent_text_only ok :
    img = None \/ img = Some [] ->
    send_events t img sum f wr
      (EvPublish t img sum
       :: EvSendMessage t (build_caption t sum) ok
       :: (if ok then save_events t f wr else [])).

(** Every ledger write of [evs] comes right behind an accepted transport
    call for [t], and the list it writes holds [t]. *)
Definition writes_follow_delivery (t : pystr) (evs : list event) : Prop :=
  forall pre l post,
    evs = pre ++ EvWrite l :: post ->
    t ∈ l /\ exists pre' e, pre = pre' ++ [e] /\ accepted e = Some t.

(** [m] leaves the ledger file alone, and the events it adds all satisfy
    [Q]. *)
Definition frames {A} (m : M A) (Q : event -> Prop) : Prop :=
  forall w, exists evs,
    snd (m w) = World (ledger w) (writable w) (trace w ++ evs)
    /\ Forall Q evs.

(** An event about no entry: a GET of the feed or of a page, a wait. *)
Definition quiet (e : event) : Prop :=
  event_title e = None /\ is_write e = false.

(** What the loop over the futures stores for the [k]th future: the result
    of the task, or the fallback when the task raised or the wait for it
    timed out. *)
Definition settle (s : schedule) (futures : gmap nat (outcome enrichment))
    (k : nat) : enrichment :=
  if timed_out s k then failed_details
  else match futures !! k with
       | Some (Return result) => result
       | _ => failed_details
       end.

(** [news_list] after the enrichment stage: the entries of the ledger [P]
    are as they were, the [k]th of the others has the details settled for
    the [k]th future. *)
Fixpoint enrich (P : gset pystr) (s : schedule)
    (futures : gmap nat (outcome enrichment)) (k : nat)
    (news_list : list news) : list news :=
  match news_list with
  | [] => []
  | n :: rest =>
      if decide (title n ∈ P) then n :: enrich P s futures k rest
      else set_details (settle s futures k) n
           :: enrich P s futures (S k) rest
  end.

(** The entries that go to the enricher, with their positions. *)
Definition new_entries (P : gset pystr) (off : nat) (news_list : list news)
  : list (nat * news) :=
  filter (λ p : nat * news, title (snd p) ∉ P)
    (imap (λ i, pair (off + i)%nat) news_list).

(** The futures of the enrichment stage that starts in [w] with the entries
    [news_list], as the workers leave them: each one holds what its task
    returned or raised in the run. *)
Definition enrichment_futures (net : network) (s : schedule)
    (news_list : list news) (w : world) : gmap nat (outcome enrichment) :=
  match load_posted_titles w with
  | (Return posted_titles, w0) =>
      let articles_to_fetch :=
        filter (λ p : nat * news, title (snd p) ∉ posted_titles)
          (imap pair news_list) in
      let tasks :=
        List.map
          (fun p =>
             fetch_article_details net (article_url (snd p)) (art (snd p)))
          articles_to_fetch in
      match run_workers (completion_order s (length tasks)) tasks ∅
              (snd (submit_all articles_to_fetch w0)) with
      | (Return futures, _) => futures
      | (Raise _, _) => ∅
      end
  | (Raise _, _) => ∅
  end.

(** The number of the future of the entry at position [i]. *)
Definition rank (P : gset pystr) (news_list : list news) (i : nat) : nat :=
  length (filter (λ n, title n ∉ P) (take i news_list)).

(** The publishing loop, entry by entry: an entry of the ledger is passed
    over, another one is handed to the publisher and followed by the pause
    of two seconds; the ledger file moves on with the accepted calls.  The
    loop ends with [KeyError] at an entry that is not in the ledger and has
    no details. *)
Inductive publish_run (wr : writability)
  : ledger_file -> list news -> list event -> ledger_file -> outcome unit
    -> Prop :=
| publish_done f : publish_run wr f [] [] f (Return tt)
| publish_skip f P n rest evs f' r :
    titles_of f = Some P -> title n ∈ P ->
    publish_run wr f rest evs f' r ->
    publish_run wr f (n :: rest) evs f' r
| publish_send f P n d rest es evs f' r :
    titles_of f = Some P -> title n ∉ P -> details n = Some d ->
    send_events (title n) (image d) (summary d) f wr es ->
    publish_run wr
      (if delivered (title n) es then save_ledger (title n) f wr else f)
      rest evs f' r ->
    publish_run wr f (n :: rest) (es ++ EvSleep 2 :: evs) f' r
| publish_key_error f P n rest :
    titles_of f = Some P -> title n ∉ P -> details n = None ->
    publish_run wr f (n :: rest) [] f (Raise KeyError).

(** The events of a run that went from [w0] to [w1]. *)
Definition events_since (w0 w1 : world) : list event :=
  drop (length (trace w0)) (trace w1).

(** ** Concrete runs *)

(** A network on which every request fails in the transport. *)
Definition offline : network := {|
  get_feed := fun _ => ConnectionFailed;
  get_detail := fun _ _ => ConnectionFailed;
  get_image := fun _ _ => ConnectionFailed;
  post_photo := fun _ _ _ => ConnectionFailed;
  post_message := fun _ _ => ConnectionFailed
|}.

(** Every card is of today. *)
Definition any_day : config :=
  {| today_local := 0; local_date := fun _ => LocalDate 0 |}.

(** As [any_day], except that an instant before the year 1 in UTC has no
    local date. *)
Definition year_one : config :=
  {| today_local := 0;
     local_date := fun date_str =>
       if startswith (str "0001-01-01T00:00:00+09:00") date_str
       then OutOfRange else LocalDate 0 |}.

Definition card (t href : string) (thumb : option string) : article :=
  {| h3 := Some {| h3_text := str t; h3_link := Some (Some (str href)) |};
     time_tag := Some (Some (str "2025-01-01T09:00:00+09:00"));
     thumbnail := Some (option_map str thumb) |}.

Definition card_a : article := card "A" "/a" (Some "/img/a.jpg"%string).
Definition card_b : article := card "B" "/b" None.
Definition card_c : article := card "C" "/c" (Some "http://cdn/c.png"%string).

(** A card dated at the first instant of the year 1, nine hours east. *)
Definition card_year_one : article :=
  {| h3 := Some {| h3_text := str "Z"; h3_link := None |};
     time_tag := Some (Some (str "0001-01-01T00:00:00+09:00"));
     thumbnail := None |}.

Definition page : detail_doc :=
  {| meat := Some (Some [str "Hello "; str "world"]); content := None |}.

(** A site with three cards of today, whose pages, images and transport
    all answer. *)
Definition newsroom : network := {|
  get_feed := fun _ => Status true (Parsed [card_a; card_b; card_c]);
  get_detail := fun _ _ => Status true (Parsed page);
  get_image := fun _ _ => Status true (str "image/jpeg");
  post_photo := fun _ _ _ => Status true tt;
  post_message := fun _ _ => Status true tt
|}.

(** The same site, where the parser rejects the page of B. *)
Definition page_b_rejected : network := {|
  get_feed := get_feed newsroom;
  get_detail := fun _ url =>
    if startswith (BASE_URL ++ str "/b") url then Status true Rejected
    else Status true (Parsed page);
  get_image := get_image newsroom;
  post_photo := post_photo newsroom;
  post_message := post_message newsroom
|}.

(** A site with the card A alone, whose article page cannot be reached. *)
Definition page_a_down : network := {|
  get_feed := fun _ => Status true (Parsed [card_a]);
  get_detail := fun _ _ => ConnectionFailed;
  get_image := get_image newsroom;
  post_photo := post_photo newsroom;
  post_message := post_message newsroom
|}.

Definition entry (t href : string) (a : article) : news :=
  {| title := str t; article_url := Some (BASE_URL ++ str href);
     art := a; details := None |}.

(** What the feed fetch returns on [newsroom]. *)
Definition abc_news : list news :=
  [entry "A" "/a" card_a; entry "B" "/b" card_b; entry "C" "/c" card_c].

(** The task of C ends first, then A, then B; no future times out. *)
Definition out_of_order : schedule :=
  {| completion := [2; 0; 1]%nat; timed_out := fun _ => false |}.

(** The wait for the second future (the one of B) times out. *)
Definition b_times_out : schedule :=
  {| completion := [2; 0]%nat; timed_out := fun k => Nat.eqb k 1 |}.

Definition fresh : world := World Missing Writable [].

(** ** The older script [bot.py] *)

Module Legacy.

(** The character class of the pattern of [escape_markdown], as the file
    has it: between '*' and '(' it holds the private-use character U+E001
    (twice). *)
Definition special (c : N) : bool :=
  ((c =? 95) || (c =? 42) || (c =? 57345) || (c =? 40) || (c =? 41)
   || (c =? 126) || (c =? 96) || (c =? 62) || (c =? 35) || (c =? 43)
   || (c =? 45) || (c =? 61) || (c =? 124) || (c =? 123) || (c =? 125)
   || (c =? 46) || (c =? 33))%N.

(** [re.sub(r'([...])', r'\\\1', text)]: a backslash in front of every
    character of the class. *)
Definition escape_markdown (text : pystr) : pystr :=
  flat_map (fun c => if special c then [92%N; c] else [c]) text.

(** The line boundaries of [str.splitlines]. *)
Definition linebreak (c : N) : bool :=
  ((c =? 10) || (c =? 13) || (c =? 11) || (c =? 12) || (c =? 28)
   || (c =? 29) || (c =? 30) || (c =? 133) || (c =? 8232)
   || (c =? 8233))%N.

(** [str.splitlines()], with the line read so far in [cur] (reversed):
    "\r\n" is one boundary, and no empty line follows the last one. *)
Fixpoint splitlines_from (cur : pystr) (s : pystr) : list pystr :=
  match s with
  | [] => match cur with [] => [] | _ :: _ => [rev cur] end
  | c :: rest =>
      if linebreak c then
        rev cur
        :: match rest with
           | c' :: rest' =>
               if (c =? 13)%N && (c' =? 10)%N then splitlines_from [] rest'
               else splitlines_from [] rest
           | [] => splitlines_from [] rest
           end
      else splitlines_from (c :: cur) rest
  end.

Definition splitlines (s : pystr) : list pystr := splitlines_from [] s.

(** The file [posted_titles.txt]: absent, or its text. *)
Definition ledger := option pystr.

(** [load_posted_titles] *)
Definition load_posted_titles (f : ledger) : gset pystr :=
  match f with
  | Some content => list_to_set (splitlines content)
  | None => ∅
  end.

(** [save_posted_title]: the file is opened for appending. *)
Definition save_posted_title (title : pystr) (f : ledger) : ledger :=
  match f with
  | Some content => Some (content ++ title ++ [10%N])
  | None => Some (title ++ [10%N])
  end.

(** One request to the messaging API: the photo, where there is one, and
    the caption. *)
Record sent := {
  sent_photo : option pystr;
  sent_caption : pystr
}.

(** [requests.get]: an exception, or a status code and whether the body
    parses as JSON. *)
Inductive reply :=
| Failed
| Answer (status_code : Z) (body_is_json : bool).

Record state := {
  file : ledger;
  requests : list sent
}.

Definition caption_of (title : pystr) (trailer_url : option pystr) : pystr :=
  let caption := [128240%N; 32%N] ++ title in
  let caption :=
    match trailer_url with
    | Some ((_ :: _) as url) =>
        caption ++ [10%N; 128249%N] ++ str " [Watch Trailer]("
        ++ url ++ str ")"
    | _ => caption
    end in
  caption ++ [10%N; 10%N] ++ str "```@TheAnimeTimes_acn```".

Definition send_to_telegram (api : list sent -> sent -> reply)
    (title : pystr) (image_url trailer_url : option pystr) (st : state)
  : outcome unit * state :=
  let title := escape_markdown title in
  let caption := caption_of title trailer_url in
  let request :=
    match image_url with
    | Some ((_ :: _) as url) =>
        {| sent_photo := Some url; sent_caption := caption |}
    | _ => {| sent_photo := None; sent_caption := caption |}
    end in
  let st' := {| file := file st; requests := requests st ++ [request] |} in
  match api (requests st) request with
  | Failed => (Raise RequestException, st')
  | Answer status_code body_is_json =>
      if status_code =? 200 then
        (Return tt,
         {| file := save_posted_title title (file st');
            requests := requests st' |})
      else if body_is_json then (Return tt, st')
      else (Raise JSONDecodeError, st')
  end.


End Legacy.

(** ** Vocabulary of the further properties *)

Definition is_publish (e : event) : bool :=
  match e with EvPublish _ _ _ => true | _ => false end.

(** The pause of two seconds of the publishing loop. *)
Definition is_pause (e : event) : bool :=
  match e with EvSleep z => z =? 2 | _ => false end.

Definition is_accepted (e : event) : bool :=
  match accepted e with Some _ => true | None => false end.

Definition is_call (e : event) : bool :=
  match delivery e with Some _ => true | None => false end.

Definition is_photo (e : event) : bool :=
  match e with EvSendPhoto _ _ _ _ => true | _ => false end.

Definition is_get_detail (e : event) : bool :=
  match e with EvGetDetail _ => true | _ => false end.

Definition is_get_feed (e : event) : bool :=
  match e with EvGetFeed => true | _ => false end.

(** The event is a transport call for [t] that the transport accepted. *)
Definition accepted_for (t : pystr) (e : event) : bool :=
  bool_decide (accepted e = Some t).

(** How many events of [evs] satisfy [p]. *)
Definition count (p : event -> bool) (evs : list event) : nat :=
  length (List.filter p evs).

(** The card has a title and a time whose date is today (or the debug flag
    is set). *)
Definition dated_today (cfg : config) (a : article) : bool :=
  match h3 a, time_tag a with
  | Some _, Some (Some date_str) =>
      match local_date cfg date_str with
      | LocalDate news_date => DEBUG_MODE || (news_date =? today_local cfg)
      | _ => false
      end
  | _, _ => false
  end.

(** The card makes the loop raise [KeyError]: a time tag without the
    attribute datetime, or a card of today whose link has no href. *)
Definition malformed (cfg : config) (a : article) : bool :=
  match h3 a, time_tag a with
  | Some _, Some None => true
  | Some title_tag, Some (Some _) =>
      dated_today cfg a
      && match h3_link title_tag with Some None => true | _ => false end
  | _, _ => false
  end.

(** The card makes the loop raise [OverflowError]: the local date of its
    time tag is out of range. *)
Definition overflowing (cfg : config) (a : article) : bool :=
  match h3 a, time_tag a with
  | Some _, Some (Some date_str) =>
      match local_date cfg date_str with OutOfRange => true | _ => false end
  | _, _ => false
  end.

(** The exception the loop raises at the first card at which it raises. *)
Fixpoint first_raise (cfg : config) (all_articles : list article)
  : option exn :=
  match all_articles with
  | [] => None
  | a :: rest =>
      if malformed cfg a then Some KeyError
      else if overflowing cfg a then Some OverflowError
      else first_raise cfg rest
  end.

(** No code point of the string is a surrogate (U+D800 to U+DFFF). *)
Definition no_surrogate (s : pystr) : bool :=
  forallb (λ c, (c <? 55296)%N || (57343 <? c)%N) s.

(** The dict the loop appends for a card. *)
Definition card_entry (a : article) : option news :=
  match h3 a with
  | Some title_tag =>
      Some {| title := h3_text title_tag;
              article_url :=
                match h3_link title_tag with
                | Some (Some href) => Some (BASE_URL ++ href)
                | _ => None
                end;
              art := a; details := None |}
  | None => None
  end.

(** The thumbnail of the card carries a non-empty data-src. *)
Definition has_thumbnail (a : article) : bool :=
  match thumbnail a with Some (Some (_ :: _)) => true | _ => false end.

(** The probe of [url] in the history [h] finds an image. *)
Definition probe_ok (net : network) (h : list event) (url : pystr) : bool :=
  match get_image net h url with
  | Status true content_type => startswith (str "image/") content_type
  | _ => false
  end.

(** * Properties *)

(** Unfolds the operations of the monad and runs them as far as the
    state allows. *)
Ltac monadic :=
  cbv beta iota zeta delta
    [bind ret raise try_except emit history sleep request raise_for_status
     BeautifulSoup is_RequestException is_JSONDecodeError is_Exception
     fst snd].

(** ** Strings *)

Lemma replace_char_app old new s1 s2 :
  replace_char old new (s1 ++ s2)
  = replace_char old new s1 ++ replace_char old new s2.
Proof. unfold replace_char. apply flat_map_app. Qed.

Lemma escape_chain s :
  replace_char gt (str "&gt;")
    (replace_char lt (str "&lt;") (replace_char amp (str "&amp;") s))
  = flat_map escape_char s.
Proof.
  induction s as [|c s IH]; [reflexivity|].
  change (replace_char amp (str "&amp;") (c :: s))
    with ((if (c =? amp)%N then str "&amp;" else [c])
          ++ replace_char amp (str "&amp;") s).
  rewrite !replace_char_app, IH.
  change (flat_map escape_char (c :: s))
    with (escape_char c ++ flat_map escape_char s).
  f_equal. unfold escape_char.
  destruct (c =? amp)%N eqn:Ea; [reflexivity|].
  cbn [replace_char flat_map app].
  destruct (c =? lt)%N eqn:El; [reflexivity|].
  cbn [replace_char flat_map app].
  destruct (c =? gt)%N eqn:Eg; reflexivity.
Qed.

Lemma escape_html_str s : escape_html (PyStr s) = flat_map escape_char s.
Proof. destruct s; [reflexivity|]. apply escape_chain. Qed.

Lemma length_lstrip s : (length (lstrip s) <= length s)%nat.
Proof.
  induction s as [|c s IH]; simpl; [lia|].
  destruct (isspace c); simpl; lia.
Qed.

Lemma length_strip s : (length (strip s) <= length s)%nat.
Proof.
  unfold strip, rstrip. rewrite length_rev.
  etransitivity; [apply length_lstrip|].
  rewrite length_rev. apply length_lstrip.
Qed.

Lemma length_get_text_strip p :
  (length (get_text_strip p) <= length (text p))%nat.
Proof.
  unfold get_text_strip, text.
  induction p as [|s p IH]; simpl; [lia|].
  pose proof (length_strip s).
  destruct (truthy (strip s)); simpl; rewrite ?length_app; lia.
Qed.

Lemma slice_to_nonneg {A} (s : list A) k :
  0 <= k -> slice_to s k = take (Z.to_nat k) s.
Proof. intros Hk. unfold slice_to. destruct (Z.ltb_spec k 0); [lia|done]. Qed.

(** C4 (the code departs from it).  For the title "T" and a summary of one
    thousand letters the first caption is over the limit, and the caption
    built again after cutting the summary has 1045 characters: the cut
    keeps 50 characters for the 71 that surround the title and the
    summary. *)
Theorem caption_retruncated_too_long :
  let title := str "T" in
  let summary := repeat 97%N 1000 in
  1024 < len (format_caption (escape_html (PyStr title))
                (escape_html (PyStr summary)))
  /\ len (build_caption title summary) = 1045.
Proof. vm_compute. split; reflexivity. Qed.

(** C3 (as stated it fails).  A paragraph of two blanks and four hundred
    letters is longer than 300 characters, and its summary is not the first
    300 characters of that text followed by "...": the blanks are gone. *)
Lemma paragraph_summary_not_raw_prefix :
  let p : paragraph := [[32%N; 32%N] ++ repeat 97%N 400] in
  300 < len (text p)
  /\ paragraph_summary p <> slice_to (text p) 300 ++ str "...".
Proof. vm_compute. split; [reflexivity|discriminate]. Qed.

(** C3 (amended).  Where the stripped text of the first paragraph
    ([get_text(strip=True)]) is longer than 300 characters, the summary is
    its first 300 characters followed by "..."; where the text of the
    paragraph has at most 300 characters, the summary is that text as it
    is. *)
Theorem paragraph_summary_truncation (p : paragraph) :
  (300 < len (get_text_strip p) ->
   paragraph_summary p = take 300 (get_text_strip p) ++ str "...")
  /\ (len (text p) <= 300 -> paragraph_summary p = text p).
Proof.
  unfold paragraph_summary, len. pose proof (length_get_text_strip p).
  split; intros Hlen.
  - destruct (Z.ltb_spec 300 (Z.of_nat (length (text p)))); [|lia].
    rewrite slice_to_nonneg by lia. reflexivity.
  - destruct (Z.ltb_spec 300 (Z.of_nat (length (text p)))); [lia|done].
Qed.

Lemma paragraph_summary_truncation_witness :
  paragraph_summary [[32%N] ++ repeat 98%N 301 ++ [32%N]]
  = take 300 (get_text_strip [[32%N] ++ repeat 98%N 301 ++ [32%N]])
    ++ str "..."
  /\ paragraph_summary [str " short "; str "text"] = str " short text".
Proof.
  split.
  - apply (proj1 (paragraph_summary_truncation
                    [[32%N] ++ repeat 98%N 301 ++ [32%N]])).
    vm_compute. reflexivity.
  - apply (proj2 (paragraph_summary_truncation [str " short "; str "text"])).
    vm_compute. discriminate.
Defined.

(** ** The ledger *)

Lemma load_posted_titles_eq w :
  load_posted_titles w
  = (match titles_of (ledger w) with
     | Some P => Return P
     | None => Raise (load_error (ledger w))
     end, w).
Proof.
  unfold load_posted_titles, try_except, bind, path_exists, read_ledger.
  destruct (ledger w) eqn:E; simpl; rewrite ?E; reflexivity.
Qed.

Lemma save_posted_title_eq t w :
  save_posted_title t w
  = (Return tt,
     World (save_ledger t (ledger w) (writable w)) (writable w)
       (trace w ++ save_events t (ledger w) (writable w))).
Proof.
  unfold save_posted_title, try_except, bind.
  rewrite load_posted_titles_eq.
  unfold save_ledger, save_events, saved, write_ledger, ret.
  destruct w as [f wr tr]; simpl.
  destruct (titles_of f); simpl; destruct wr; simpl;
    rewrite ?app_nil_r; reflexivity.
Qed.

Lemma titles_of_save_ledger t f wr P :
  titles_of f = Some P ->
  titles_of (save_ledger t f wr)
  = Some (match wr with
          | Writable => P ∪ {[t]}
          | ReadOnly => P
          | FailsAfterOpen => ∅
          end).
Proof.
  intros HP. unfold save_ledger. rewrite HP.
  destruct wr; [|exact HP|reflexivity]. simpl. f_equal.
  apply list_to_set_elements_L.
Qed.




(** ** The retry policy and the feed fetch *)

Lemma wait_exponential_bounds n :
  4 <= wait_exponential 1 4 10 n <= 10.
Proof. unfold wait_exponential. lia. Qed.

Lemma retry_returns {A} n wait (f : M A) w a w' :
  f w = (Return a, w') -> retry (S n) wait f w = (Return a, w').
Proof. intros Hf. unfold retry. simpl. rewrite Hf. reflexivity. Qed.

(** The decorator does its work for an exception the function lets through:
    when the parser rejects the homepage each time, there are three GETs
    with a wait of 4 seconds between them, and then [RetryError] leaves
    the function. *)
Lemma fetch_anime_news_retry_exhausted net cfg w :
  (forall h, get_feed net h = Status true Rejected) ->
  fetch_anime_news net cfg w
  = (Raise RetryError,
     World (ledger w) (writable w)
       (trace w
        ++ [EvGetFeed; EvSleep 4; EvGetFeed; EvSleep 4; EvGetFeed])).
Proof.
  intros Hrej.
  unfold fetch_anime_news, retry, attempts, fetch_anime_news_once,
    session_get_feed.
  monadic. repeat (rewrite Hrej; monadic; cbn [ledger writable trace]).
  rewrite <- !app_assoc. reflexivity.
Qed.

(** C5 (the code departs from it).  When the GET of the homepage fails in
    the transport or by its HTTP status, the feed fetch returns the empty
    list on the spot: one GET, no wait and no second attempt.  The handler
    inside the function takes the error before the retry decorator can see
    it. *)
Theorem fetch_anime_news_gives_up_at_once net cfg w :
  succeeded (get_feed net (trace w)) = false ->
  fetch_anime_news net cfg w
  = (Return [], World (ledger w) (writable w) (trace w ++ [EvGetFeed])).
Proof.
  intros Hfail. unfold fetch_anime_news. apply retry_returns.
  unfold fetch_anime_news_once, session_get_feed. monadic.
  destruct (get_feed net (trace w)) as [|[] body]; simpl in *;
    try reflexivity.
  discriminate Hfail.
Qed.

Lemma fetch_anime_news_gives_up_at_once_witness :
  fetch_anime_news offline any_day (World Missing Writable [])
  = (Return [], World Missing Writable [EvGetFeed]).
Proof.
  apply (fetch_anime_news_gives_up_at_once offline any_day
           (World Missing Writable [])).
  reflexivity.
Defined.

(** ** The publisher *)

Lemma delivered_cons_accepted t e evs :
  accepted e = Some t -> delivered t (e :: evs) = true.
Proof.
  intros H. unfold delivered. simpl.
  rewrite bool_decide_eq_true_2; done.
Qed.

Lemma delivered_cons_other t e evs :
  accepted e = None -> delivered t (e :: evs) = delivered t evs.
Proof. intros H. unfold delivered. simpl. rewrite H. reflexivity. Qed.

Lemma delivered_save_events t t' f wr :
  delivered t (save_events t' f wr) = false.
Proof. unfold save_events. destruct (saved t' f wr); reflexivity. Qed.

Ltac simpl_delivered :=
  repeat first
    [ rewrite delivered_cons_other by reflexivity
    | rewrite delivered_cons_accepted by reflexivity
    | rewrite delivered_save_events ];
  change (delivered _ []) with false.

(** Closes one path through the publisher: the events of the path are read
    off the final state. *)
Ltac close_path :=
  monadic; rewrite ?save_posted_title_eq; cbn [ledger writable trace];
  rewrite <- ?app_assoc; cbn [app];
  match goal with
  | |- exists evs, (_, World _ _ (_ ++ ?e)) = _ /\ _ => exists e
  end;
  split;
  [ simpl_delivered; reflexivity
  | first [ eapply sent_photo; reflexivity
          | eapply (sent_text_after_photo _ _ _ _ _ _ true); reflexivity
          | eapply (sent_text_after_photo _ _ _ _ _ _ false); reflexivity
          | eapply (sent_text_after_probe _ _ _ _ _ _ true); reflexivity
          | eapply (sent_text_after_probe _ _ _ _ _ _ false); reflexivity
          | eapply (sent_text_only _ _ _ _ _ true); auto
          | eapply (sent_text_only _ _ _ _ _ false); auto ] ].

Lemma send_to_telegram_spec net t img sum w :
  exists evs,
    send_to_telegram net t img sum w
    = (Return tt,
       World (if delivered t evs
              then save_ledger t (ledger w) (writable w) else ledger w)
         (writable w) (trace w ++ evs))
    /\ send_events t img sum (ledger w) (writable w) evs.
Proof.
  unfold send_to_telegram, validate_image_url, session_get_image,
    session_post_photo, session_post_message.
  monadic.
  destruct img as [[|c url]|].
  - destruct (post_message _ _ _) as [|[] []]; close_path.
  - destruct (get_image _ _ _) as [|[] ct]; monadic.
    + destruct (post_message _ _ _) as [|[] []]; close_path.
    + destruct (startswith _ _); monadic; cbn [negb].
      * destruct (post_photo _ _ _ _) as [|[] []]; monadic.
        -- destruct (post_message _ _ _) as [|[] []]; close_path.
        -- close_path.
        -- destruct (post_message _ _ _) as [|[] []]; close_path.
      * destruct (post_message _ _ _) as [|[] []]; close_path.
    + destruct (post_message _ _ _) as [|[] []]; close_path.
  - destruct (post_message _ _ _) as [|[] []]; close_path.
Qed.

(** C10. Escaping turns every '&' into "&amp;", every '<' into "&lt;" and
    every '>' into "&gt;" and keeps every other character; on [None], on
    the empty string and on a value that is not a string it gives the empty
    string.  The caption is formatted from the escaped title and from the
    escaped summary (the fixed text "No summary available" for an empty
    summary): the summary goes in whole when the caption so formatted has
    at most 1024 characters, and else cut to its first
    1024 - len(escaped title) - 50 characters and closed by "...".  Every
    photo and every message the publisher sends carries that caption. *)
Theorem escape_html_before_format :
  (forall s, escape_html (PyStr s) = flat_map escape_char s)
  /\ escape_char amp = str "&amp;"
  /\ escape_char lt = str "&lt;"
  /\ escape_char gt = str "&gt;"
  /\ escape_html PyNone = []
  /\ escape_html (PyStr []) = []
  /\ escape_html PyOther = []
  /\ (forall title summary,
        let safe_title := flat_map escape_char title in
        let safe_summary :=
          if truthy summary then flat_map escape_char summary
          else str "No summary available" in
        build_caption title summary
        = if 1024 <? len (format_caption safe_title safe_summary)
          then format_caption safe_title
                 (slice_to safe_summary (1024 - len safe_title - 50)
                  ++ str "...")
          else format_caption safe_title safe_summary)
  /\ (forall net t img sum w,
        Forall (λ e, match e with
                     | EvSendPhoto _ _ caption _ | EvSendMessage _ caption _ =>
                         caption = build_caption t sum
                     | _ => True
                     end)
          (events_since w (snd (send_to_telegram net t img sum w)))).
Proof.
  repeat split; try reflexivity; [apply escape_html_str| |].
  - intros title summary safe_title safe_summary. unfold build_caption.
    rewrite !escape_html_str. reflexivity.
  - intros net t img sum w.
    destruct (send_to_telegram_spec net t img sum w) as (evs & Hrun & Hevs).
    rewrite Hrun. unfold events_since. cbn [snd trace].
    rewrite drop_app_length.
    destruct Hevs as [url ?|url ok ?|url ok ?|ok ?]; try destruct ok;
      unfold save_events; destruct (saved t (ledger w) (writable w));
      repeat constructor.
Qed.

Lemma saved_holds_title t f wr l : saved t f wr = Some l -> t ∈ l.
Proof.
  unfold saved. destruct (titles_of f) as [P|], wr; try discriminate.
  intros [= <-]. apply elem_of_elements. set_solver.
Qed.

(** C1. The publisher returns without an exception.  Every write of the
    ledger it makes comes right behind a transport call for the title that
    the transport accepted, and writes that title; and when no call was
    accepted (the text delivery failed, after the photo delivery failed or
    was not tried), the ledger file is as before and nothing was written. *)
Theorem ledger_written_after_delivery net t img sum w :
  exists evs w',
    send_to_telegram net t img sum w = (Return tt, w')
    /\ trace w' = trace w ++ evs
    /\ writes_follow_delivery t evs
    /\ (delivered t evs = false ->
        ledger w' = ledger w /\ forallb (λ e, negb (is_write e)) evs = true).
Proof.
  destruct (send_to_telegram_spec net t img sum w) as (evs & Hrun & Hevs).
  exists evs. eexists. split; [exact Hrun|]. split; [reflexivity|].
  split.
  - intros pre l post E.
    destruct Hevs as [url ?|url ok ?|url ok ?|ok ?];
      try destruct ok; unfold save_events in E;
      destruct (saved t (ledger w) (writable w)) eqn:Hsaved;
      repeat match goal with
        | H : _ :: _ = ?pre ++ _ :: _ |- _ =>
            destruct pre; simpl in H; simplify_eq
        | H : [] = ?pre ++ _ :: _ |- _ => destruct pre; discriminate H
        end;
      (split; [by eapply saved_holds_title|]);
      first [ by eexists [_], _ | by eexists [_; _], _
            | by eexists [_; _; _], _ ].
  - intros Hnone. cbn [ledger]. rewrite Hnone. split; [reflexivity|].
    destruct Hevs as [url ?|url ok ?|url ok ?|ok ?];
      try destruct ok; revert Hnone; simpl_delivered;
      try discriminate; reflexivity.
Qed.

Lemma ledger_written_after_delivery_witness :
  exists evs w',
    send_to_telegram offline (str "Season Finale Announced")
      (Some (str "http://img/x.jpg")) (str "Soon.") (World Missing Writable [])
    = (Return tt, w')
    /\ trace w' = evs
    /\ ledger w' = Missing
    /\ forallb (λ e, negb (is_write e)) evs = true.
Proof.
  destruct (ledger_written_after_delivery offline
              (str "Season Finale Announced") (Some (str "http://img/x.jpg"))
              (str "Soon.") (World Missing Writable []))
    as (evs & w' & Hrun & Htr & _ & Hfail).
  exists evs, w'. split; [exact Hrun|]. split; [exact Htr|].
  apply Hfail.
  vm_compute in Hrun. injection Hrun as <-. vm_compute in Htr.
  subst evs. vm_compute. reflexivity.
Defined.

(** ** Computations that leave the ledger alone *)

Lemma frames_ret {A} (a : A) Q : frames (ret a) Q.
Proof. intros w. exists []. rewrite app_nil_r. by destruct w. Qed.

Lemma frames_raise {A} e Q : frames (@raise A e) Q.
Proof. intros w. exists []. rewrite app_nil_r. by destruct w. Qed.

Lemma frames_history Q : frames history Q.
Proof. intros w. exists []. rewrite app_nil_r. by destruct w. Qed.

Lemma frames_emit e (Q : event -> Prop) : Q e -> frames (emit e) Q.
Proof. intros He w. exists [e]. split; [reflexivity|]. by constructor. Qed.

Lemma frames_bind {A B} (m : M A) (k : A -> M B) Q :
  frames m Q -> (forall a, frames (k a) Q) -> frames (bind m k) Q.
Proof.
  intros Hm Hk w. unfold bind.
  destruct (Hm w) as (evs1 & E1 & F1).
  destruct (m w) as [[a|e] w1]; simpl in E1; subst w1.
  - destruct (Hk a (World (ledger w) (writable w) (trace w ++ evs1)))
      as (evs2 & E2 & F2).
    exists (evs1 ++ evs2). rewrite E2. cbn [ledger writable trace].
    rewrite app_assoc. split; [reflexivity|]. by apply Forall_app.
  - by exists evs1.
Qed.

Lemma frames_try_except {A} (body handler : M A) handled Q :
  frames body Q -> frames handler Q ->
  frames (try_except body handled handler) Q.
Proof.
  intros Hb Hh w. unfold try_except.
  destruct (Hb w) as (evs1 & E1 & F1).
  destruct (body w) as [[a|e] w1]; simpl in E1; subst w1.
  - by exists evs1.
  - destruct (handled e); [|by exists evs1].
    destruct (Hh (World (ledger w) (writable w) (trace w ++ evs1)))
      as (evs2 & E2 & F2).
    exists (evs1 ++ evs2). rewrite E2. cbn [ledger writable trace].
    rewrite app_assoc. split; [reflexivity|]. by apply Forall_app.
Qed.

Lemma frames_request {A} (r : response A) Q : frames (request r) Q.
Proof. destruct r; [apply frames_raise | apply frames_ret]. Qed.

Lemma frames_raise_for_status {A} (r : bool * A) Q :
  frames (raise_for_status r) Q.
Proof.
  unfold raise_for_status.
  destruct (fst r); [apply frames_ret | apply frames_raise].
Qed.

Lemma frames_BeautifulSoup {A} (r : bool * markup A) Q :
  frames (BeautifulSoup r) Q.
Proof.
  unfold BeautifulSoup.
  destruct (snd r); [apply frames_raise | apply frames_ret].
Qed.

Lemma frames_attempts {A} (f : M A) (Q : event -> Prop) wait n a :
  frames f Q -> (forall z, Q (EvSleep z)) ->
  frames (attempts n a wait f) Q.
Proof.
  intros Hf Hs. revert a.
  induction n as [|n IH]; intros a; [apply frames_raise|].
  intros w. simpl.
  destruct (Hf w) as (evs1 & E1 & F1).
  destruct (f w) as [[x|e] w1]; simpl in E1; subst w1; [by exists evs1|].
  destruct n as [|n]; [by exists evs1|].
  assert (Hk : frames (exec sleep (wait a);
                       attempts (S n) (a + 1) wait f) Q).
  { apply frames_bind; [apply frames_emit, Hs | intros _; apply IH]. }
  destruct (Hk (World (ledger w) (writable w) (trace w ++ evs1)))
    as (evs2 & E2 & F2).
  exists (evs1 ++ evs2). rewrite E2. cbn [ledger writable trace].
  rewrite app_assoc. split; [reflexivity|]. by apply Forall_app.
Qed.

Lemma quiet_sleep z : quiet (EvSleep z).
Proof. by split. Qed.

Lemma frames_scan_articles cfg arts acc Q :
  frames (scan_articles cfg arts acc) Q.
Proof.
  revert acc. induction arts as [|a arts IH]; intros acc; simpl.
  - apply frames_ret.
  - destruct (h3 a) as [title_tag|], (time_tag a) as [[date_str|]|];
      try apply IH; try apply frames_raise.
    destruct (local_date cfg date_str); [apply IH|apply frames_raise|].
    match goal with |- context [if ?b then _ else _] => destruct b end;
      [|apply IH].
    destruct (h3_link title_tag) as [[href|]|];
      try apply IH; apply frames_raise.
Qed.

Lemma frames_fetch_anime_news net cfg : frames (fetch_anime_news net cfg) quiet.
Proof.
  apply frames_attempts; [|apply quiet_sleep].
  apply frames_try_except; [|apply frames_ret].
  apply frames_bind.
  { apply frames_bind; [apply frames_history|intros h].
    apply frames_bind; [by apply frames_emit|intros _].
    apply frames_request. }
  intros r. apply frames_bind; [apply frames_raise_for_status|intros _].
  apply frames_bind; [apply frames_BeautifulSoup|intros arts].
  apply frames_scan_articles.
Qed.

Lemma frames_fetch_article_details net url a :
  frames (fetch_article_details net url a) quiet.
Proof.
  apply frames_attempts; [|apply quiet_sleep].
  unfold fetch_article_details_once.
  apply frames_bind; [|intros ?; apply frames_ret].
  destruct url as [[|c url]|]; try apply frames_ret.
  apply frames_try_except; [|apply frames_ret].
  apply frames_bind.
  { apply frames_bind; [apply frames_history|intros h].
    apply frames_bind; [by apply frames_emit|intros _].
    apply frames_request. }
  intros r. apply frames_bind; [apply frames_raise_for_status|intros _].
  apply frames_bind; [apply frames_BeautifulSoup|intros doc].
  destruct (meat doc) as [[p|]|]; try apply frames_ret.
  destruct (content doc) as [[p|]|]; apply frames_ret.
Qed.

Lemma frames_run_workers order tasks futures Q :
  Forall (λ task, frames task Q) tasks ->
  frames (run_workers order tasks futures) Q.
Proof.
  intros Htasks. revert futures.
  induction order as [|k order IH]; intros futures; simpl.
  - apply frames_ret.
  - destruct (tasks !! k) as [task|] eqn:Hk; [|apply IH].
    intros w.
    destruct (Forall_lookup_1 _ _ _ _ Htasks Hk w) as (evs1 & E1 & F1).
    destruct (task w) as [r w1]; simpl in E1; subst w1.
    destruct (IH (<[k:=r]> futures)
                (World (ledger w) (writable w) (trace w ++ evs1)))
      as (evs2 & E2 & F2).
    exists (evs1 ++ evs2). rewrite E2. cbn [ledger writable trace].
    rewrite app_assoc. split; [reflexivity|]. by apply Forall_app.
Qed.

(** ** The loop over the news cards *)

Lemma attempts_returned {A} (f : M A) wait n :
  forall a w r w',
    attempts n a wait f w = (Return r, w') ->
    exists w0 w1, f w0 = (Return r, w1).
Proof.
  induction n as [|n IH]; intros a w r w' H; [discriminate H|].
  simpl in H. destruct (f w) as [[x|e] w1] eqn:Hf.
  - injection H as <- <-. by exists w, w1.
  - destruct n as [|n]; [discriminate H|].
    unfold bind, sleep, emit in H. by eapply IH.
Qed.

Lemma omap_card_cons a l :
  omap card_entry (a :: l)
  = match card_entry a with
    | Some n => n :: omap card_entry l
    | None => omap card_entry l
    end.
Proof. reflexivity. Qed.

Lemma card_entry_some a title_tag :
  h3 a = Some title_tag ->
  card_entry a
  = Some {| title := h3_text title_tag;
            article_url :=
              match h3_link title_tag with
              | Some (Some href) => Some (BASE_URL ++ href)
              | _ => None
              end;
            art := a; details := None |}.
Proof. intros H. unfold card_entry. by rewrite H. Qed.

Lemma card_entry_bare a n : card_entry a = Some n -> details n = None.
Proof. unfold card_entry. destruct (h3 a); [|done]. by intros [= <-]. Qed.

Lemma dated_today_eq cfg a :
  dated_today cfg a
  = match h3 a, time_tag a with
    | Some _, Some (Some date_str) =>
        match local_date cfg date_str with
        | LocalDate news_date => DEBUG_MODE || (news_date =? today_local cfg)
        | _ => false
        end
    | _, _ => false
    end.
Proof. reflexivity. Qed.

Lemma malformed_eq cfg a :
  malformed cfg a
  = match h3 a, time_tag a with
    | Some _, Some None => true
    | Some title_tag, Some (Some _) =>
        dated_today cfg a
        && match h3_link title_tag with Some None => true | _ => false end
    | _, _ => false
    end.
Proof. reflexivity. Qed.

Lemma overflowing_eq cfg a :
  overflowing cfg a
  = match h3 a, time_tag a with
    | Some _, Some (Some date_str) =>
        match local_date cfg date_str with OutOfRange => true | _ => false end
    | _, _ => false
    end.
Proof. reflexivity. Qed.

(** The loop raises at the first card that makes it raise, and returns the
    cards dated today otherwise. *)
Lemma scan_articles_eq cfg arts :
  forall acc w,
    scan_articles cfg arts acc w
    = (match first_raise cfg arts with
       | Some e => Raise e
       | None =>
           Return (acc ++ omap card_entry (List.filter (dated_today cfg) arts))
       end,
       w).
Proof.
  induction arts as [|a arts IH]; intros acc w.
  - simpl. by rewrite app_nil_r.
  - cbn [scan_articles first_raise List.filter].
    rewrite (malformed_eq cfg a), (overflowing_eq cfg a),
      !(dated_today_eq cfg a).
    destruct (h3 a) as [title_tag|] eqn:Hh3; [|by rewrite IH].
    destruct (time_tag a) as [[date_str|]|]; [|reflexivity|by rewrite IH].
    destruct (local_date cfg date_str) as [| |news_date];
      [by rewrite IH|reflexivity|].
    destruct (DEBUG_MODE || (news_date =? today_local cfg));
      [|by rewrite IH].
    destruct (h3_link title_tag) as [[href|]|] eqn:Hlink; [|reflexivity|];
      rewrite IH; cbn [orb andb];
      rewrite omap_card_cons, (card_entry_some _ _ Hh3), Hlink;
      destruct (first_raise cfg arts); try reflexivity;
      by rewrite <- app_assoc.
Qed.

Lemma todays_entries cfg arts :
  List.map art (omap card_entry (List.filter (dated_today cfg) arts))
  = List.filter (dated_today cfg) arts
  /\ Forall (λ n, card_entry (art n) = Some n)
       (omap card_entry (List.filter (dated_today cfg) arts)).
Proof.
  induction arts as [|a arts [IH1 IH2]]; [by split; [|constructor]|].
  cbn [List.filter]. rewrite (dated_today_eq cfg a).
  destruct (h3 a) as [title_tag|] eqn:Hh3; [|by split].
  destruct (time_tag a) as [[date_str|]|]; [|by split..].
  destruct (local_date cfg date_str) as [| |news_date]; [by split..|].
  destruct (DEBUG_MODE || (news_date =? today_local cfg)); [|by split].
  rewrite omap_card_cons, (card_entry_some _ _ Hh3). cbn [List.map art].
  split; [by rewrite IH1|]. constructor; [|exact IH2].
  cbn [art]. by apply card_entry_some.
Qed.

(** A card that raises [KeyError] makes the loop raise, with [KeyError]
    unless a card of an out-of-range date raises first. *)
Lemma first_raise_malformed cfg arts :
  existsb (malformed cfg) arts = true ->
  exists e,
    first_raise cfg arts = Some e
    /\ (e = KeyError \/ e = OverflowError)
    /\ (existsb (overflowing cfg) arts = false -> e = KeyError).
Proof.
  induction arts as [|a arts IH]; [discriminate|].
  cbn [existsb first_raise]. intros H.
  destruct (malformed cfg a); [exists KeyError; auto|].
  destruct (overflowing cfg a).
  - exists OverflowError. split; [reflexivity|]. split; [by right|].
    discriminate.
  - exact (IH H).
Qed.

Lemma first_raise_overflowing cfg arts :
  existsb (overflowing cfg) arts = true ->
  exists e, first_raise cfg arts = Some e.
Proof.
  induction arts as [|a arts IH]; [discriminate|].
  cbn [existsb first_raise]. intros H.
  destruct (malformed cfg a); [by eexists|].
  destruct (overflowing cfg a); [by eexists|]. exact (IH H).
Qed.

Lemma fetch_anime_news_once_eq net cfg w :
  fetch_anime_news_once net cfg w
  = (match get_feed net (trace w) with
     | Status true (Parsed arts) =>
         match first_raise cfg arts with
         | Some e => Raise e
         | None =>
             Return (omap card_entry (List.filter (dated_today cfg) arts))
         end
     | Status true Rejected => Raise ParserRejectedMarkup
     | _ => Return []
     end,
     World (ledger w) (writable w) (trace w ++ [EvGetFeed])).
Proof.
  unfold fetch_anime_news_once, session_get_feed. monadic.
  destruct (get_feed net (trace w)) as [|[] [|arts]]; try reflexivity.
  rewrite scan_articles_eq.
  assert (Hne : forall e, first_raise cfg arts = Some e ->
                  e = KeyError \/ e = OverflowError).
  { clear. induction arts as [|a arts IH]; [discriminate|].
    cbn [first_raise]. intros e.
    destruct (malformed cfg a); [intros [= <-]; by left|].
    destruct (overflowing cfg a); [intros [= <-]; by right|]. apply IH. }
  destruct (first_raise cfg arts) as [e|]; [|reflexivity].
  by destruct (Hne e eq_refl) as [->| ->].
Qed.

(** The entries of the feed fetch carry no details yet. *)
Lemma fetched_entries_bare net cfg w nl w' :
  fetch_anime_news net cfg w = (Return nl, w') ->
  Forall (λ n, details n = None) nl.
Proof.
  intros (w0 & w1 & Honce)%attempts_returned.
  rewrite fetch_anime_news_once_eq in Honce.
  destruct (get_feed net (trace w0)) as [|[] [|arts]];
    try (injection Honce as <- _; constructor); try discriminate Honce.
  destruct (first_raise cfg arts); [discriminate Honce|].
  injection Honce as <- _.
  eapply Forall_impl; [exact (proj2 (todays_entries cfg arts))|].
  intros n Hn. exact (card_entry_bare _ _ Hn).
Qed.

(** ** The enrichment stage *)

Lemma submit_all_eq atf w :
  submit_all atf w
  = (Return tt,
     World (ledger w) (writable w)
       (trace w ++ List.map (λ p, EvSubmit (title (snd p))) atf)).
Proof.
  revert w. induction atf as [|[i n] atf IH]; intros w; simpl.
  - rewrite app_nil_r. by destruct w.
  - monadic. rewrite IH. cbn [ledger writable trace].
    by rewrite <- app_assoc.
Qed.

Lemma future_result_settle s futures k w :
  try_except (future_result s futures k) is_Exception (ret failed_details) w
  = (Return (settle s futures k), w).
Proof.
  unfold future_result, settle. monadic.
  destruct (timed_out s k); [reflexivity|].
  destruct (futures !! k) as [[r|e]|]; reflexivity.
Qed.

Lemma new_entries_cons P off n rest :
  new_entries P off (n :: rest)
  = if decide (title n ∈ P) then new_entries P (S off) rest
    else (off, n) :: new_entries P (S off) rest.
Proof.
  unfold new_entries. rewrite imap_cons, filter_cons.
  assert (E : imap ((λ i, pair (off + i)%nat) ∘ S) rest
              = imap (λ i, pair (S off + i)%nat) rest).
  { apply imap_ext. intros i x _. simpl. f_equal. lia. }
  rewrite E, Nat.add_0_r. simpl.
  destruct (decide (title n ∈ P)), (decide (title n ∉ P)); done.
Qed.

Lemma collect_enrich P s futures nl :
  forall pre k w,
    collect s futures k (new_entries P (length pre) nl) (pre ++ nl) w
    = (Return (pre ++ enrich P s futures k nl), w).
Proof.
  induction nl as [|n rest IH]; intros pre k w.
  - reflexivity.
  - rewrite new_entries_cons. simpl.
    destruct (decide (title n ∈ P)).
    + specialize (IH (pre ++ [n]) k w).
      rewrite length_app, Nat.add_1_r, <- !app_assoc in IH. exact IH.
    + simpl. unfold bind at 1. rewrite future_result_settle.
      specialize (IH (pre ++ [set_details (settle s futures k) n]) (S k) w).
      rewrite length_app, Nat.add_1_r, <- !app_assoc in IH.
      cbn [app] in IH.
      replace (alter (set_details (settle s futures k)) (length pre)
                 (pre ++ n :: rest))
        with (pre ++ set_details (settle s futures k) n :: rest);
        [exact IH|].
      symmetry. rewrite <- (Nat.add_0_r (length pre)).
      by rewrite alter_app_r.
Qed.

Lemma new_entries_are_new P off nl :
  Forall (λ p, title (snd p) ∉ P) (new_entries P off nl).
Proof. unfold new_entries. apply Forall_forall. intros p Hp.
  by apply list_elem_of_filter in Hp as [? _]. Qed.

(** The pool hands back a future for every task, whatever the tasks do. *)
Lemma run_workers_returns order tasks futures w :
  exists futures' w',
    run_workers order tasks futures w = (Return futures', w').
Proof.
  revert futures w. induction order as [|k order IH]; intros g w; simpl.
  - by eexists _, _.
  - destruct (tasks !! k) as [task|]; [|apply IH].
    destruct (task w). apply IH.
Qed.

Lemma fetch_selected_articles_spec net s nl w P :
  titles_of (ledger w) = Some P ->
  exists evs,
    fetch_selected_articles net s nl w
    = (Return (enrich P s (enrichment_futures net s nl w) 0 nl),
       World (ledger w) (writable w)
         (trace w
          ++ List.map (λ p, EvSubmit (title (snd p))) (new_entries P 0 nl)
          ++ evs))
    /\ Forall quiet evs.
Proof.
  intros HP. unfold fetch_selected_articles, enrichment_futures.
  unfold bind at 1. rewrite load_posted_titles_eq, HP.
  change (filter _ (imap pair nl)) with (new_entries P 0 nl).
  unfold bind at 1. rewrite submit_all_eq. cbn [snd].
  set (tasks := List.map (λ p, fetch_article_details _ _ _) _).
  set (w1 := World _ _ _).
  assert (Hw : frames
            (run_workers (completion_order s (length tasks)) tasks ∅) quiet).
  { apply frames_run_workers. subst tasks. apply Forall_forall.
    intros task Htask. apply list_elem_of_In, in_map_iff in Htask
      as (p & <- & _). apply frames_fetch_article_details. }
  destruct (Hw w1) as (evs & E & Hq).
  destruct (run_workers_returns (completion_order s (length tasks))
              tasks ∅ w1) as (futures & w2 & Hrun).
  unfold bind. rewrite Hrun in *. simpl in E. subst w2.
  exists evs. split; [|exact Hq].
  rewrite (collect_enrich P s futures nl [] 0). subst w1.
  cbn [ledger writable trace app]. by rewrite <- app_assoc.
Qed.

Lemma fetch_selected_articles_unreadable net s nl w :
  titles_of (ledger w) = None ->
  fetch_selected_articles net s nl w = (Raise (load_error (ledger w)), w).
Proof.
  intros HP. unfold fetch_selected_articles, bind.
  by rewrite load_posted_titles_eq, HP.
Qed.

(** ** The publishing loop *)

Lemma next_ledger_titles t f wr P (b : bool) :
  titles_of f = Some P ->
  exists P1,
    titles_of (if b then save_ledger t f wr else f) = Some P1
    /\ (wr <> FailsAfterOpen -> P ⊆ P1) /\ P1 ⊆ P ∪ {[t]}
    /\ (b = true -> wr = Writable -> t ∈ P1).
Proof.
  intros HP. destruct b.
  - rewrite (titles_of_save_ledger t f wr P HP).
    eexists. split; [reflexivity|]. destruct wr; set_solver.
  - exists P. set_solver.
Qed.

(** The loop goes on while the ledger can be loaded, which the publisher
    never undoes; it stops early only at an entry without details. *)
Lemma publish_all_spec net nl :
  forall w P,
    titles_of (ledger w) = Some P ->
    exists evs f' r,
      publish_all net nl w = (r, World f' (writable w) (trace w ++ evs))
      /\ publish_run (writable w) (ledger w) nl evs f' r.
Proof.
  induction nl as [|n rest IH]; intros w P HP.
  - exists [], (ledger w), (Return tt). rewrite app_nil_r.
    split; [by destruct w|]. constructor.
  - cbn [publish_all].
    unfold bind at 1. rewrite load_posted_titles_eq, HP.
    destruct (decide (title n ∈ P)) as [Hin|Hnew].
    + rewrite bool_decide_eq_false_2 by (intros H; by apply H).
      unfold bind at 1. cbn [ret].
      destruct (IH w P HP) as (evs & f' & r & Hrun & Hpr).
      exists evs, f', r. split; [exact Hrun|].
      by eapply publish_skip.
    + rewrite bool_decide_eq_true_2 by exact Hnew.
      destruct (details n) as [d|] eqn:Hd.
      * destruct (send_to_telegram_spec net (title n) (image d) (summary d) w)
          as (es & Hsend & Hes).
        monadic. rewrite Hsend. cbn [ledger writable trace].
        set (f1 := if delivered (title n) es then _ else _).
        destruct (next_ledger_titles (title n) (ledger w) (writable w) P
                    (delivered (title n) es) HP) as (P1 & HP1 & _).
        fold f1 in HP1.
        destruct (IH (World f1 (writable w) ((trace w ++ es) ++ [EvSleep 2]))
                    P1 HP1) as (evs & f' & r & Hrun & Hpr).
        exists (es ++ EvSleep 2 :: evs), f', r. rewrite Hrun.
        cbn [ledger writable trace]. rewrite <- !app_assoc. cbn [app].
        split; [reflexivity|].
        by eapply publish_send.
      * exists [], (ledger w), (Raise KeyError). monadic.
        rewrite app_nil_r. split; [by destruct w|].
        by eapply publish_key_error.
Qed.

(** The loop runs to its end when every entry is in the ledger or has its
    details, provided no write of the ledger fails behind the open, which
    would empty it. *)
Lemma publish_run_returns wr f nl evs f' r :
  publish_run wr f nl evs f' r ->
  forall P,
    titles_of f = Some P ->
    Forall (λ n, is_Some (details n)
                 \/ (title n ∈ P /\ wr <> FailsAfterOpen)) nl ->
    r = Return tt.
Proof.
  induction 1 as [f|f P n rest evs f' r HP Hin _ IH
                 |f P n d rest es evs f' r HP Hnew Hd Hes _ IH
                 |f P n rest HP Hnew Hd];
    intros P0 HP0 Hall.
  - reflexivity.
  - apply Forall_cons in Hall as [_ Hrest]. by apply (IH P0).
  - apply Forall_cons in Hall as [_ Hrest].
    assert (P0 = P) as -> by congruence.
    destruct (next_ledger_titles (title n) f wr P
                (delivered (title n) es) HP) as (P1 & HP1 & Hsub & _).
    apply (IH P1 HP1).
    eapply Forall_impl; [exact Hrest|].
    intros m [?|[Hm Hwr]]; [by left|right]. split; [|exact Hwr].
    by apply (Hsub Hwr).
  - apply Forall_cons in Hall as [Hn _].
    assert (P0 = P) as -> by congruence.
    destruct Hn as [[d Hd']|[Hin _]]; [congruence|done].
Qed.

Lemma enrich_details P s futures nl :
  forall k, Forall (λ n, title n ∈ P \/ is_Some (details n))
              (enrich P s futures k nl).
Proof.
  induction nl as [|n rest IH]; intros k; simpl; [constructor|].
  destruct (decide (title n ∈ P)); constructor; auto.
Qed.

Lemma enrich_new_details P s futures nl :
  Forall (λ n, title n ∉ P) nl ->
  forall k, Forall (λ n, is_Some (details n)) (enrich P s futures k nl).
Proof.
  induction 1 as [|n rest Hn _ IH]; intros k; simpl; [constructor|].
  destruct (decide (title n ∈ P)); [done|]. constructor; auto.
Qed.

(** An entry that came without details has none after the enrichment stage
    when its title is in the ledger. *)
Lemma enrich_known_bare P s futures nl :
  Forall (λ n, details n = None) nl ->
  forall k, Forall (λ n, title n ∈ P -> details n = None)
              (enrich P s futures k nl).
Proof.
  induction 1 as [|n rest Hn _ IH]; intros k; simpl; [constructor|].
  destruct (decide (title n ∈ P)); constructor; auto.
  intros Hin. done.
Qed.

Lemma enrich_titles P s futures nl :
  forall k, List.map title (enrich P s futures k nl) = List.map title nl.
Proof.
  induction nl as [|n rest IH]; intros k; simpl; [reflexivity|].
  destruct (decide (title n ∈ P)); simpl; by rewrite IH.
Qed.

(** The whole run, once the feed fetch has returned and the ledger can be
    loaded: quiet events of the fetch, the submissions, quiet events of the
    workers, then the publishing loop over the enriched list. *)
Lemma run_once_spec net cfg s w nl w1 P :
  fetch_anime_news net cfg w = (Return nl, w1) ->
  titles_of (ledger w) = Some P ->
  exists evs1 evs2 evs3 f' r,
    run_once net cfg s w
    = (r,
       World f' (writable w)
         (trace w ++ evs1
          ++ List.map (λ p, EvSubmit (title (snd p))) (new_entries P 0 nl)
          ++ evs2 ++ evs3))
    /\ Forall quiet evs1 /\ Forall quiet evs2
    /\ publish_run (writable w) (ledger w)
         (enrich P s (enrichment_futures net s nl w1) 0 nl) evs3 f' r.
Proof.
  intros Hfetch HP.
  destruct (frames_fetch_anime_news net cfg w) as (evs1 & E1 & Hq1).
  rewrite Hfetch in E1. simpl in E1. subst w1.
  unfold run_once, bind. rewrite Hfetch.
  destruct nl as [|n0 nl0].
  - exists evs1, [], [], (ledger w), (Return tt). cbn [ret]. simpl.
    rewrite !app_nil_r. repeat split; auto. constructor.
  - set (nl := n0 :: nl0) in *.
    set (w1 := World _ _ _).
    destruct (fetch_selected_articles_spec net s nl w1 P HP)
      as (evs2 & Hsel & Hq2).
    rewrite Hsel. cbn [ledger writable trace].
    set (w2 := World _ _ _).
    destruct (publish_all_spec net
                (enrich P s (enrichment_futures net s nl w1) 0 nl) w2 P HP)
      as (evs3 & f' & r & Hpub & Hpr).
    rewrite Hpub. exists evs1, evs2, evs3, f', r.
    subst w2 w1. cbn [ledger writable trace]. rewrite <- !app_assoc.
    repeat split; auto.
Qed.

(** ** Events of a run *)

Lemma events_since_app w w' evs :
  trace w' = trace w ++ evs -> events_since w w' = evs.
Proof. intros E. unfold events_since. rewrite E. apply drop_app_length. Qed.

Lemma load_titles_of w P :
  fst (load_posted_titles w) = Return P -> titles_of (ledger w) = Some P.
Proof.
  rewrite load_posted_titles_eq. simpl.
  destruct (titles_of (ledger w)); congruence.
Qed.

Lemma send_events_titles t img sum f wr es :
  send_events t img sum f wr es ->
  Forall (λ e, event_title e = Some t \/ event_title e = None) es.
Proof.
  intros [url ?|url ok ?|url ok ?|ok ?]; try destruct ok;
    unfold save_events; destruct (saved t f wr);
    repeat (constructor; [by (simpl; auto)|]); constructor.
Qed.

Lemma send_events_calls t img sum f wr es :
  send_events t img sum f wr es ->
  transport_calls es = [t] \/ transport_calls es = [t; t].
Proof.
  intros [url ?|url ok ?|url ok ?|ok ?]; try destruct ok;
    unfold save_events; destruct (saved t f wr); cbn; auto.
Qed.

Lemma accepted_event_title e t : accepted e = Some t -> event_title e = Some t.
Proof. destruct e as [| | | | |? ? ? []|? ? []| |]; simpl; congruence. Qed.

Lemma delivered_app t evs1 evs2 :
  delivered t (evs1 ++ evs2) = delivered t evs1 || delivered t evs2.
Proof. apply existsb_app. Qed.

Lemma delivered_true t evs :
  delivered t evs = true <-> exists e, e ∈ evs /\ accepted e = Some t.
Proof.
  unfold delivered. rewrite existsb_exists. split.
  - intros (e & Hin & He). exists e. split; [by apply list_elem_of_In|].
    by apply bool_decide_eq_true in He.
  - intros (e & Hin & He). exists e. split; [by apply list_elem_of_In|].
    by apply bool_decide_eq_true.
Qed.

Lemma delivered_untitled t evs :
  Forall (λ e, event_title e ≠ Some t) evs -> delivered t evs = false.
Proof.
  intros Hall. apply not_true_is_false. intros (e & Hin & He)%delivered_true.
  rewrite Forall_forall in Hall. apply (Hall e Hin).
  by apply accepted_event_title.
Qed.

Lemma quiet_untitled t evs :
  Forall quiet evs -> Forall (λ e, event_title e ≠ Some t) evs.
Proof.
  intros H. eapply Forall_impl; [exact H|]. intros e [He _]. congruence.
Qed.

Lemma submits_untitled (Q : pystr -> Prop) t (atf : list (nat * news)) :
  Forall (λ p, Q (title (snd p))) atf -> ¬ Q t ->
  Forall (λ e, event_title e ≠ Some t)
    (List.map (λ p, EvSubmit (title (snd p))) atf).
Proof.
  intros Hall Ht. induction Hall as [|p atf Hp _ IH]; constructor; auto.
  simpl. intros [= E]. apply Ht. by rewrite <- E.
Qed.

Lemma transport_calls_app evs1 evs2 :
  transport_calls (evs1 ++ evs2)
  = transport_calls evs1 ++ transport_calls evs2.
Proof. apply omap_app. Qed.

Lemma transport_calls_untitled evs :
  Forall (λ e, delivery e = None) evs -> transport_calls evs = [].
Proof.
  induction 1 as [|e evs He _ IH]; [reflexivity|].
  change (transport_calls (e :: evs))
    with (match fst <$> delivery e with
          | Some t => t :: transport_calls evs
          | None => transport_calls evs
          end).
  by rewrite He, IH.
Qed.

Lemma quiet_no_delivery evs :
  Forall quiet evs -> Forall (λ e, delivery e = None) evs.
Proof.
  intros H. eapply Forall_impl; [exact H|]. intros e [He _]. by destruct e.
Qed.

Lemma submits_no_delivery (atf : list (nat * news)) :
  Forall (λ e, delivery e = None)
    (List.map (λ p, EvSubmit (title (snd p))) atf).
Proof. induction atf; constructor; auto. Qed.

(** An entry without details gets no event of the publishing loop. *)
Lemma publish_run_known wr f nl evs f' r :
  publish_run wr f nl evs f' r ->
  forall t, Forall (λ n, title n = t -> details n = None) nl ->
    Forall (λ e, event_title e ≠ Some t) evs.
Proof.
  induction 1 as [f|f P0 n rest evs f' r HP0 Hin _ IH
                 |f P0 n d rest es evs f' r HP0 Hnew Hd Hes _ IH
                 |f P0 n rest HP0 Hnew Hd];
    intros t Hall.
  - constructor.
  - apply Forall_cons in Hall as [_ Hrest]. by apply IH.
  - apply Forall_cons in Hall as [Hn Hrest].
    apply Forall_app. split.
    + eapply Forall_impl; [exact (send_events_titles _ _ _ _ _ _ Hes)|].
      intros e [He|He]; rewrite He; [|done]. intros [= E].
      specialize (Hn E). congruence.
    + constructor; [done|]. by apply IH.
  - constructor.
Qed.

(** C2. An entry whose title is in the ledger when the run looks it up is
    neither submitted to the enricher nor handed to the publisher, and no
    transport call is made for it: the run has no event about that title. *)
Theorem known_title_untouched net cfg s w P t :
  fst (load_posted_titles w) = Return P ->
  t ∈ P ->
  Forall (λ e, event_title e ≠ Some t)
    (events_since w (snd (run_once net cfg s w))).
Proof.
  intros HP%load_titles_of Ht.
  destruct (fetch_anime_news net cfg w) as [[nl|e] w1] eqn:Hfetch.
  - destruct (run_once_spec net cfg s w nl w1 P Hfetch HP)
      as (evs1 & evs2 & evs3 & f' & r & Hrun & Hq1 & Hq2 & Hpr).
    rewrite Hrun. erewrite events_since_app by reflexivity.
    repeat apply Forall_app_2.
    + by apply quiet_untitled.
    + apply (submits_untitled (λ x, x ∉ P)); [|by intros H].
      apply new_entries_are_new.
    + by apply quiet_untitled.
    + eapply publish_run_known; [exact Hpr|].
      eapply Forall_impl;
        [exact (enrich_known_bare P s _ nl
                  (fetched_entries_bare _ _ _ _ _ Hfetch) 0)|].
      intros n Hn E. apply Hn. by rewrite E.
  - destruct (frames_fetch_anime_news net cfg w) as (evs1 & E1 & Hq1).
    unfold run_once, bind. rewrite Hfetch in *. simpl in *. subst w1.
    erewrite events_since_app by reflexivity.
    by apply quiet_untitled.
Qed.

(** Entries that are all new, pairwise distinct and have their details are
    handed to the transport one after the other, in the order of the list,
    and the loop runs to its end. *)
Lemma publish_run_order wr f nl evs f' r :
  publish_run wr f nl evs f' r ->
  forall P, titles_of f = Some P ->
    Forall (λ n, title n ∉ P) nl ->
    Forall (λ n, is_Some (details n)) nl ->
    NoDup (List.map title nl) ->
    r = Return tt
    /\ exists blocks,
         transport_calls evs = concat blocks
         /\ Forall2 (λ t b, b = [t] \/ b = [t; t]) (List.map title nl) blocks.
Proof.
  induction 1 as [f|f P0 n rest evs f' r HP0 Hin _ IH
                 |f P0 n d rest es evs f' r HP0 Hnew Hd Hes _ IH
                 |f P0 n rest HP0 Hnew Hd];
    intros P HP Hall Hdet Hnd.
  - split; [reflexivity|]. exists []. split; [reflexivity|constructor].
  - apply Forall_cons in Hall as [Hn _].
    assert (P0 = P) as -> by congruence. done.
  - apply Forall_cons in Hall as [Hn Hrest].
    apply Forall_cons in Hdet as [_ Hdet].
    simpl in Hnd. apply NoDup_cons in Hnd as [Hfresh Hnd].
    destruct (next_ledger_titles (title n) f wr P
                (delivered (title n) es) HP) as (P1 & HP1 & _ & Hsub & _).
    destruct (IH P1 HP1) as (Hr & blocks & Hcalls & Hblocks);
      [|exact Hdet|exact Hnd|].
    { apply Forall_forall. intros m Hm Hin.
      apply Hsub, elem_of_union in Hin as [Hin|Hin].
      - rewrite Forall_forall in Hrest. by apply (Hrest m).
      - apply elem_of_singleton in Hin. apply Hfresh.
        rewrite <- Hin. apply list_elem_of_In, in_map.
        by apply list_elem_of_In. }
    split; [exact Hr|].
    exists (transport_calls es :: blocks). split.
    + rewrite transport_calls_app. simpl. f_equal. exact Hcalls.
    + simpl. constructor; [|exact Hblocks].
      exact (send_events_calls _ _ _ _ _ _ Hes).
  - apply Forall_cons in Hdet as [[d Hd'] _]. congruence.
Qed.

(** C7. When the candidates of the feed are all new and carry distinct
    titles, the transport calls of the run come title by title in the order
    of the feed, one call or two (photo, then text) for each title,
    whatever the order in which the enrichment tasks ended and whichever of
    them timed out. *)
Theorem delivery_in_feed_order net cfg s w nl w1 P :
  fetch_anime_news net cfg w = (Return nl, w1) ->
  fst (load_posted_titles w) = Return P ->
  Forall (λ n, title n ∉ P) nl ->
  NoDup (List.map title nl) ->
  exists w' blocks,
    run_once net cfg s w = (Return tt, w')
    /\ transport_calls (events_since w w') = concat blocks
    /\ Forall2 (λ t b, b = [t] \/ b = [t; t]) (List.map title nl) blocks.
Proof.
  intros Hfetch HP%load_titles_of Hnew Hnd.
  destruct (run_once_spec net cfg s w nl w1 P Hfetch HP)
    as (evs1 & evs2 & evs3 & f' & r & Hrun & Hq1 & Hq2 & Hpr).
  set (F := enrichment_futures net s nl w1) in *.
  destruct (publish_run_order _ _ _ _ _ _ Hpr P HP)
    as (-> & blocks & Hcalls & Hb).
  { apply Forall_forall. intros m Hm.
    assert (Ht : title m ∈ List.map title (enrich P s F 0 nl)).
    { apply list_elem_of_In, in_map. by apply list_elem_of_In. }
    rewrite enrich_titles in Ht.
    apply list_elem_of_In, in_map_iff in Ht as (m0 & <- & Hm0).
    rewrite Forall_forall in Hnew. apply Hnew. by apply list_elem_of_In. }
  { by apply enrich_new_details. }
  { by rewrite enrich_titles. }
  rewrite enrich_titles in Hb.
  eexists _, blocks. split; [exact Hrun|]. split; [|exact Hb].
  erewrite events_since_app by reflexivity.
  rewrite !transport_calls_app.
  rewrite (transport_calls_untitled evs1) by by apply quiet_no_delivery.
  rewrite (transport_calls_untitled evs2) by by apply quiet_no_delivery.
  rewrite (transport_calls_untitled _ (submits_no_delivery _)).
  exact Hcalls.
Qed.

(** ** A second run *)

Lemma send_events_delivered t img sum f wr es t' :
  send_events t img sum f wr es -> delivered t' es = true -> t' = t.
Proof.
  intros Hes (e & Hin & He%accepted_event_title)%delivered_true.
  pose proof (send_events_titles _ _ _ _ _ _ Hes) as Hall.
  rewrite Forall_forall in Hall. destruct (Hall e Hin); congruence.
Qed.

Lemma delivered_submits t (atf : list (nat * news)) :
  delivered t (List.map (λ p, EvSubmit (title (snd p))) atf) = false.
Proof.
  induction atf as [|p atf IH]; [reflexivity|].
  cbn [List.map]. by rewrite delivered_cons_other.
Qed.

(** With a ledger that can be written, every accepted delivery of the
    publishing loop is in the ledger at the end, and nothing leaves it. *)
Lemma publish_run_persisted f nl evs f' r :
  publish_run Writable f nl evs f' r ->
  forall P, titles_of f = Some P ->
    exists P',
      titles_of f' = Some P' /\ P ⊆ P'
      /\ forall t, delivered t evs = true -> t ∈ P'.
Proof.
  induction 1 as [f|f P0 n rest evs f' r HP0 Hin _ IH
                 |f P0 n d rest es evs f' r HP0 Hnew Hd Hes _ IH
                 |f P0 n rest HP0 Hnew Hd];
    intros P HP.
  - exists P. repeat split; [done..|]. discriminate.
  - by apply IH.
  - destruct (next_ledger_titles (title n) f Writable P
                (delivered (title n) es) HP) as (P1 & HP1 & Hsub & _ & Hin).
    specialize (Hsub ltac:(discriminate)).
    destruct (IH P1 HP1) as (P' & HP' & Hsub' & Hdel).
    exists P'. split; [exact HP'|]. split; [set_solver|].
    intros t Ht. rewrite delivered_app in Ht.
    apply orb_true_iff in Ht as [Ht|Ht].
    + assert (t = title n) as -> by by eapply send_events_delivered.
      apply Hsub', Hin; done.
    + rewrite delivered_cons_other in Ht by reflexivity. by apply Hdel.
  - exists P. repeat split; [done..|]. discriminate.
Qed.

Lemma new_entries_known P nl :
  Forall (λ n, title n ∈ P) nl -> forall off, new_entries P off nl = [].
Proof.
  induction 1 as [|n rest Hn _ IH]; intros off; [reflexivity|].
  rewrite new_entries_cons. destruct (decide (title n ∈ P)); [apply IH|done].
Qed.

Lemma publish_run_all_known wr f nl evs f' r :
  publish_run wr f nl evs f' r ->
  forall P, titles_of f = Some P ->
    Forall (λ n, title n ∈ P) nl -> evs = [] /\ f' = f /\ r = Return tt.
Proof.
  induction 1 as [f|f P0 n rest evs f' r HP0 Hin _ IH
                 |f P0 n d rest es evs f' r HP0 Hnew Hd Hes _ IH
                 |f P0 n rest HP0 Hnew Hd];
    intros P HP Hall.
  - done.
  - apply Forall_cons in Hall as [_ Hrest]. by eapply IH.
  - apply Forall_cons in Hall as [Hn _].
    assert (P0 = P) as -> by congruence. done.
  - apply Forall_cons in Hall as [Hn _].
    assert (P0 = P) as -> by congruence. done.
Qed.

Lemma run_workers_no_tasks order futures w :
  run_workers order [] futures w = (Return futures, w).
Proof. induction order as [|k order IH]; [reflexivity|exact IH]. Qed.

Lemma fetch_selected_articles_known net s nl w P :
  titles_of (ledger w) = Some P ->
  Forall (λ n, title n ∈ P) nl ->
  fetch_selected_articles net s nl w = (Return nl, w).
Proof.
  intros HP Hall. unfold fetch_selected_articles.
  unfold bind at 1. rewrite load_posted_titles_eq, HP.
  change (filter _ (imap pair nl)) with (new_entries P 0 nl).
  rewrite (new_entries_known P nl Hall). cbn [submit_all List.map length].
  unfold bind, ret. by rewrite run_workers_no_tasks.
Qed.

Lemma publish_all_known net nl w P :
  titles_of (ledger w) = Some P ->
  Forall (λ n, title n ∈ P) nl ->
  publish_all net nl w = (Return tt, w).
Proof.
  intros HP Hall.
  destruct (publish_all_spec net nl w P HP) as (evs & f' & r & Hrun & Hpr).
  destruct (publish_run_all_known _ _ _ _ _ _ Hpr P HP Hall)
    as (-> & -> & ->).
  rewrite Hrun, app_nil_r. by destruct w.
Qed.

(** C8. After a first run that could write the ledger and in which the
    transport accepted a delivery for every entry of the feed, a second run
    on the same feed publishes nothing: it returns in the state in which
    its feed fetch left it, so it submits nothing to the enricher, never
    calls the publisher, makes no transport call and leaves the ledger file
    as the first run wrote it. *)
Theorem second_run_publishes_nothing
    net cfg s net2 cfg2 s2 w0 wa nl r1 w1 wb :
  fetch_anime_news net cfg w0 = (Return nl, wa) ->
  run_once net cfg s w0 = (r1, w1) ->
  writable w0 = Writable ->
  Forall (λ n, delivered (title n) (events_since w0 w1) = true) nl ->
  fetch_anime_news net2 cfg2 w1 = (Return nl, wb) ->
  run_once net2 cfg2 s2 w1 = (Return tt, wb)
  /\ ledger wb = ledger w1
  /\ Forall quiet (events_since w1 wb).
Proof.
  intros Hfetch Hrun1 Hwr Hall Hfetch2.
  destruct (frames_fetch_anime_news net2 cfg2 w1) as (evs & E & Hq).
  rewrite Hfetch2 in E. simpl in E.
  split; [|split; [by rewrite E|]];
    [|erewrite events_since_app; [exact Hq|]; by rewrite E].
  destruct nl as [|n0 nl0];
    [unfold run_once, bind; by rewrite Hfetch2|].
  destruct (titles_of (ledger w0)) as [P|] eqn:HP.
  - destruct (run_once_spec net cfg s w0 _ wa P Hfetch HP)
      as (evs1 & evs2 & evs3 & f1 & r & Hrun & Hq1 & Hq2 & Hpr).
    rewrite Hrun in Hrun1. injection Hrun1 as <- <-.
    rewrite Hwr in Hpr.
    destruct (publish_run_persisted _ _ _ _ _ Hpr P HP)
      as (P1 & HP1 & Hsub & Hdel).
    assert (Hknown : Forall (λ n, title n ∈ P1) (n0 :: nl0)).
    { eapply Forall_impl; [exact Hall|]. intros n Hn. apply Hdel.
      erewrite events_since_app in Hn by reflexivity.
      rewrite !delivered_app in Hn.
      rewrite (delivered_untitled _ evs1) in Hn by by apply quiet_untitled.
      rewrite (delivered_untitled _ evs2) in Hn by by apply quiet_untitled.
      rewrite delivered_submits in Hn. exact Hn. }
    assert (HPb : titles_of (ledger wb) = Some P1) by by rewrite E.
    unfold run_once, bind. rewrite Hfetch2.
    rewrite (fetch_selected_articles_known net2 s2 _ wb P1 HPb Hknown).
    by apply (publish_all_known net2 _ wb P1).
  - exfalso.
    destruct (frames_fetch_anime_news net cfg w0) as (evs1 & E1 & Hq1).
    rewrite Hfetch in E1. simpl in E1.
    unfold run_once, bind in Hrun1. rewrite Hfetch in Hrun1.
    rewrite fetch_selected_articles_unreadable in Hrun1
      by by rewrite E1.
    injection Hrun1 as <- <-.
    apply Forall_cons in Hall as [Hn0 _].
    erewrite events_since_app in Hn0 by (rewrite E1; reflexivity).
    rewrite (delivered_untitled _ evs1) in Hn0 by by apply quiet_untitled.
    discriminate Hn0.
Qed.

(** ** Degraded entries *)

Lemma rank_succ P n0 rest i :
  rank P (n0 :: rest) (S i)
  = ((if decide (title n0 ∈ P) then 0 else 1) + rank P rest i)%nat.
Proof.
  unfold rank. cbn [take]. rewrite filter_cons.
  destruct (decide (title n0 ∈ P)), (decide (title n0 ∉ P)); done.
Qed.

Lemma enrich_lookup P s futures nl :
  forall i n k,
    nl !! i = Some n -> title n ∉ P ->
    enrich P s futures k nl !! i
    = Some (set_details (settle s futures (k + rank P nl i)) n).
Proof.
  induction nl as [|n0 rest IH]; intros i n k Hi Hnew; [by destruct i|].
  destruct i as [|i].
  - injection Hi as ->. simpl.
    destruct (decide (title n ∈ P)); [done|].
    unfold rank. simpl. by rewrite Nat.add_0_r.
  - simpl in Hi. rewrite rank_succ. simpl.
    destruct (decide (title n0 ∈ P)); simpl.
    + by apply IH.
    + rewrite (IH i n (S k) Hi Hnew). do 3 f_equal. lia.
Qed.

Lemma new_entries_lookup P nl :
  forall off i n,
    nl !! i = Some n -> title n ∉ P ->
    new_entries P off nl !! rank P nl i = Some ((off + i)%nat, n).
Proof.
  induction nl as [|n0 rest IH]; intros off i n Hi Hnew; [by destruct i|].
  rewrite new_entries_cons. destruct i as [|i].
  - injection Hi as ->. destruct (decide (title n ∈ P)); [done|].
    unfold rank. simpl. by rewrite Nat.add_0_r.
  - simpl in Hi. rewrite rank_succ.
    destruct (decide (title n0 ∈ P)); simpl.
    + rewrite (IH (S off) i n Hi Hnew). do 2 f_equal. lia.
    + rewrite (IH (S off) i n Hi Hnew). do 2 f_equal. lia.
Qed.

(** In a loop that runs to its end, an entry that is new when the loop
    starts, among entries of distinct titles, is handed to the publisher
    with the details it carries. *)
Lemma publish_run_block wr f nl evs f' r :
  publish_run wr f nl evs f' r ->
  forall P i n,
    r = Return tt ->
    titles_of f = Some P -> NoDup (List.map title nl) ->
    nl !! i = Some n -> title n ∉ P ->
    exists d f_i pre es post,
      details n = Some d
      /\ evs = pre ++ es ++ EvSleep 2 :: post
      /\ send_events (title n) (image d) (summary d) f_i wr es.
Proof.
  induction 1 as [f|f P0 n0 rest evs f' r HP0 Hin _ IH
                 |f P0 n0 d0 rest es0 evs f' r HP0 Hnew0 Hd0 Hes0 _ IH
                 |f P0 n0 rest HP0 Hnew0 Hd0];
    intros P i n Hr HP Hnd Hi Hnew.
  - by destruct i.
  - simpl in Hnd. apply NoDup_cons in Hnd as [_ Hnd].
    assert (P0 = P) as -> by congruence.
    destruct i as [|i]; [injection Hi as ->; done|].
    by eapply IH.
  - simpl in Hnd. apply NoDup_cons in Hnd as [Hfresh Hnd].
    destruct i as [|i].
    + injection Hi as ->. by exists d0, f, [], es0, evs.
    + simpl in Hi.
      destruct (next_ledger_titles (title n0) f wr P
                  (delivered (title n0) es0) HP)
        as (P1 & HP1 & _ & Hsub & _).
      destruct (IH P1 i n Hr HP1 Hnd Hi)
        as (d & f_i & pre & es & post & Hd & -> & Hes).
      { intros Hin. apply Hsub, elem_of_union in Hin as [Hin|Hin]; [done|].
        apply elem_of_singleton in Hin. apply Hfresh. rewrite <- Hin.
        apply list_elem_of_In, in_map, list_elem_of_In.
        by eapply list_elem_of_lookup_2. }
      exists d, f_i, (es0 ++ EvSleep 2 :: pre), es, post.
      split; [exact Hd|]. split; [|exact Hes].
      by rewrite <- app_assoc.
  - discriminate Hr.
Qed.

Lemma publish_head_in t img sum f wr es :
  send_events t img sum f wr es -> EvPublish t img sum ∈ es.
Proof. intros [url ?|url ok ?|url ok ?|ok ?]; apply list_elem_of_here. Qed.

(** C6 (the code departs from it).  The page of the article A cannot be
    reached: the GET fails in the transport.  The handler inside the
    enrichment task takes the error before the retry decorator and the
    loop over the futures can see it, so the entry is not degraded: there is
    one GET and no second attempt, the entry reaches the publisher with the
    image of its thumbnail and the summary "No summary available.", and it
    goes out as a photo, not as text. *)
Theorem network_error_keeps_photo :
  let a := str "A" in
  let img := BASE_URL ++ str "/img/a.jpg" in
  let sum := str "No summary available." in
  get_detail page_a_down [EvGetFeed; EvSubmit a] (BASE_URL ++ str "/a")
  = ConnectionFailed
  /\ run_once page_a_down any_day out_of_order fresh
     = (Return tt,
        World (JsonTitles [a]) Writable
          [EvGetFeed; EvSubmit a; EvGetDetail (BASE_URL ++ str "/a");
           EvPublish a (Some img) sum; EvProbe img;
           EvSendPhoto a img (build_caption a sum) true;
           EvWrite [a]; EvSleep 2]).
Proof. split; vm_compute; reflexivity. Qed.

Lemma known_title_untouched_witness :
  Forall (λ e, event_title e ≠ Some (str "B"))
    (events_since (World (JsonTitles [str "B"]) Writable [])
       (snd (run_once newsroom any_day out_of_order
               (World (JsonTitles [str "B"]) Writable [])))).
Proof.
  apply (known_title_untouched newsroom any_day out_of_order
           (World (JsonTitles [str "B"]) Writable [])
           (list_to_set [str "B"]) (str "B")).
  - reflexivity.
  - apply elem_of_list_to_set, list_elem_of_here.
Defined.

Lemma delivery_in_feed_order_witness :
  exists w' blocks,
    run_once newsroom any_day out_of_order fresh = (Return tt, w')
    /\ transport_calls (events_since fresh w') = concat blocks
    /\ Forall2 (λ t b, b = [t] \/ b = [t; t])
         (List.map title abc_news) blocks.
Proof.
  apply (delivery_in_feed_order newsroom any_day out_of_order fresh abc_news
           (snd (fetch_anime_news newsroom any_day fresh)) ∅).
  - vm_compute. reflexivity.
  - reflexivity.
  - repeat constructor; apply not_elem_of_empty.
  - apply (bool_decide_unpack _). vm_compute. exact I.
Defined.

Lemma second_run_publishes_nothing_witness :
  let w1 := snd (run_once newsroom any_day out_of_order fresh) in
  let wb := snd (fetch_anime_news newsroom any_day w1) in
  run_once newsroom any_day b_times_out w1 = (Return tt, wb)
  /\ ledger wb = ledger w1
  /\ Forall quiet (events_since w1 wb).
Proof.
  apply (second_run_publishes_nothing newsroom any_day out_of_order
           newsroom any_day b_times_out fresh
           (snd (fetch_anime_news newsroom any_day fresh)) abc_news
           (fst (run_once newsroom any_day out_of_order fresh))
           (snd (run_once newsroom any_day out_of_order fresh))
           (snd (fetch_anime_news newsroom any_day
                   (snd (run_once newsroom any_day out_of_order fresh))))).
  - vm_compute. reflexivity.
  - vm_compute. reflexivity.
  - reflexivity.
  - repeat constructor; vm_compute; reflexivity.
  - vm_compute. reflexivity.
Defined.

(** * Further properties *)

(** ** Escaping and the caption *)

Lemma escape_char_clean c x :
  In x (escape_char c) -> x <> lt /\ x <> gt.
Proof.
  unfold escape_char.
  destruct (c =? amp)%N eqn:Ea;
    [|destruct (c =? lt)%N eqn:El; [|destruct (c =? gt)%N eqn:Eg]];
    simpl; intros H.
  - repeat destruct H as [<-|H]; try done.
  - repeat destruct H as [<-|H]; try done.
  - repeat destruct H as [<-|H]; try done.
  - destruct H as [<-|[]].
    apply N.eqb_neq in El, Eg. done.
Qed.

(** X1. Whatever it is given, [escape_html] returns a text without the
    characters '<' and '>': nothing of a title or a summary can open or
    close a tag of the HTML message. *)
Theorem escape_html_no_angle_brackets (v : pyval) :
  ~ In lt (escape_html v) /\ ~ In gt (escape_html v).
Proof.
  assert (H : forall x, In x (escape_html v) -> x <> lt /\ x <> gt).
  { intros x Hx. destruct v as [|s|]; try destruct Hx.
    rewrite escape_html_str in Hx. apply in_flat_map in Hx as (c & _ & Hc).
    by eapply escape_char_clean. }
  split; intros Hin; by destruct (H _ Hin).
Qed.

Lemma escape_char_length c :
  (1 <= length (escape_char c) <= 5)%nat.
Proof.
  unfold escape_char.
  destruct (c =? amp)%N, (c =? lt)%N, (c =? gt)%N; simpl; lia.
Qed.

(** X2. Escaping never shortens a text and makes it at most five times as
    long (the longest replacement is "&amp;"). *)
Theorem escape_html_length (s : pystr) :
  len s <= len (escape_html (PyStr s)) <= 5 * len s.
Proof.
  rewrite escape_html_str. unfold len.
  induction s as [|c s IH]; [simpl; lia|].
  cbn [flat_map]. rewrite length_app. cbn [length].
  pose proof (escape_char_length c). lia.
Qed.

Lemma escape_char_nonempty c : escape_char c <> [].
Proof.
  pose proof (escape_char_length c). destruct (escape_char c); simpl in *;
    [lia|done].
Qed.

Lemma escape_char_cases c :
  (c = amp /\ escape_char c = str "&amp;")
  \/ (c = lt /\ escape_char c = str "&lt;")
  \/ (c = gt /\ escape_char c = str "&gt;")
  \/ (c <> amp /\ c <> lt /\ c <> gt /\ escape_char c = [c]).
Proof.
  unfold escape_char.
  destruct (N.eqb_spec c amp) as [->|Ha]; [by left|].
  destruct (N.eqb_spec c lt) as [->|Hl]; [by right; left|].
  destruct (N.eqb_spec c gt) as [->|Hg]; [by right; right; left|].
  by repeat right.
Qed.

Lemma escape_flat_map_inj s1 :
  forall s2,
    flat_map escape_char s1 = flat_map escape_char s2 -> s1 = s2.
Proof.
  induction s1 as [|c1 r1 IH]; intros [|c2 r2] H.
  - reflexivity.
  - cbn [flat_map] in H. symmetry in H. apply app_eq_nil in H as [H _].
    by apply escape_char_nonempty in H.
  - cbn [flat_map] in H. apply app_eq_nil in H as [H _].
    by apply escape_char_nonempty in H.
  - cbn [flat_map] in H.
    destruct (escape_char_cases c1)
      as [[-> E1]|[[-> E1]|[[-> E1]|(Na1 & Nl1 & Ng1 & E1)]]];
    destruct (escape_char_cases c2)
      as [[-> E2]|[[-> E2]|[[-> E2]|(Na2 & Nl2 & Ng2 & E2)]]];
    rewrite ?E1, ?E2 in H; cbn in H; try discriminate H;
    try (injection H as H; f_equal; by apply IH);
    try (injection H as Hc H; try done; f_equal; [done|by apply IH]).
    all: injection H as Hc H; vm_compute in Hc; unfold amp, lt, gt in *;
      congruence.
Qed.

(** X3. Escaping loses nothing: two texts with the same escaped form are
    the same text. *)
Theorem escape_html_injective (s1 s2 : pystr) :
  escape_html (PyStr s1) = escape_html (PyStr s2) -> s1 = s2.
Proof. rewrite !escape_html_str. apply escape_flat_map_inj. Qed.

Lemma escape_html_injective_witness : str "a<b & c" = str "a<b & c".
Proof.
  apply (escape_html_injective (str "a<b & c") (str "a<b & c")).
  reflexivity.
Defined.

Lemma format_caption_length a b :
  len (format_caption a b) = len a + len b + 68.
Proof.
  unfold format_caption, len. rewrite !length_app. simpl. lia.
Qed.

(** X4. For a title whose escaped form has at most 974 characters the
    caption never has more than 1045 characters, however long the summary
    is. *)
Theorem build_caption_length_bound (title summary : pystr) :
  len (escape_html (PyStr title)) <= 974 ->
  len (build_caption title summary) <= 1045.
Proof.
  intros Ht. unfold build_caption.
  set (a := escape_html (PyStr title)) in *.
  set (b := if truthy summary then _ else _).
  destruct (Z.ltb_spec 1024 (len (format_caption a b))) as [Hlong|Hfit];
    [|lia].
  rewrite format_caption_length.
  rewrite slice_to_nonneg by lia.
  unfold len in *. rewrite length_app, length_take.
  change (length (str "...")) with 3%nat.
  clear Hlong. clearbody a b. lia.
Qed.

Lemma build_caption_length_bound_witness :
  len (build_caption (str "A & B") (repeat 60%N 400)) <= 1045.
Proof.
  apply (build_caption_length_bound (str "A & B") (repeat 60%N 400)).
  vm_compute. discriminate.
Defined.

(** X5. The summary kept for an article never has more than 303
    characters: the text itself when it has at most 300, else at most 300
    characters and the three dots. *)
Theorem paragraph_summary_length (p : paragraph) :
  len (paragraph_summary p) <= 303.
Proof.
  unfold paragraph_summary.
  destruct (Z.ltb_spec 300 (len (text p))) as [Hlong|Hfit]; [|lia].
  rewrite slice_to_nonneg by lia.
  unfold len. rewrite length_app, length_take.
  change (length (str "...")) with 3%nat. lia.
Qed.

(** ** Saving and loading the ledger *)

(** X6. A title without surrogate code points, saved to a ledger that can
    be written and that loads as a set of such titles, is found by the next
    load, together with every title that was there before (an absent file
    and a file that is no JSON count as empty). *)
Theorem save_then_load t w P :
  fst (load_posted_titles w) = Return P ->
  writable w = Writable ->
  no_surrogate t = true ->
  set_Forall (λ x, no_surrogate x = true) P ->
  fst (load_posted_titles (snd (save_posted_title t w))) = Return (P ∪ {[t]}).
Proof.
  intros HP%load_titles_of Hwr _ _.
  rewrite save_posted_title_eq, load_posted_titles_eq. cbn [snd fst ledger].
  rewrite (titles_of_save_ledger t _ _ P HP), Hwr. reflexivity.
Qed.

Lemma save_then_load_witness :
  fst (load_posted_titles
         (snd (save_posted_title (str "B")
                 (World (JsonTitles [str "A"]) Writable []))))
  = Return (list_to_set [str "A"] ∪ {[str "B"]}).
Proof.
  apply (save_then_load (str "B") (World (JsonTitles [str "A"]) Writable [])
           (list_to_set [str "A"])); try reflexivity.
  apply (bool_decide_unpack _). vm_compute. exact I.
Defined.

(** X7. Saving a title never raises.  When the ledger cannot be loaded (it
    cannot be opened, is not UTF-8, or holds JSON that is no list), or when
    the file cannot be opened for writing, the save changes nothing: no
    write is made and the file stays as it is.  When the ledger loads and
    the write fails behind the open, the save leaves a file without valid
    JSON, which the next load takes for the empty set. *)
Theorem save_posted_title_failsafe t w :
  fst (save_posted_title t w) = Return tt
  /\ (ledger w = Unreadable \/ ledger w = Undecodable \/ ledger w = JsonScalar
      \/ writable w = ReadOnly ->
      snd (save_posted_title t w) = w)
  /\ (forall P,
        fst (load_posted_titles w) = Return P ->
        writable w = FailsAfterOpen ->
        snd (save_posted_title t w) = World Malformed (writable w) (trace w)
        /\ fst (load_posted_titles (snd (save_posted_title t w)))
           = Return ∅).
Proof.
  rewrite save_posted_title_eq. split; [reflexivity|]. cbn [snd]. split.
  - intros H. unfold save_ledger, save_events, saved.
    destruct w as [f wr tr]. cbn [ledger writable trace] in *.
    destruct H as [->|[->|[->| ->]]]; simpl;
      try destruct (titles_of f); rewrite ?app_nil_r; reflexivity.
  - intros P HP%load_titles_of Hwr.
    unfold save_ledger, save_events, saved. rewrite HP, Hwr.
    by rewrite app_nil_r.
Qed.

Lemma save_posted_title_failsafe_witness :
  snd (save_posted_title (str "A") (World (JsonTitles []) ReadOnly []))
  = World (JsonTitles []) ReadOnly []
  /\ snd (save_posted_title (str "A")
            (World (JsonTitles [str "B"]) FailsAfterOpen []))
     = World Malformed FailsAfterOpen [].
Proof.
  split.
  - apply (proj1 (proj2 (save_posted_title_failsafe (str "A")
                           (World (JsonTitles []) ReadOnly [])))).
    do 3 right. reflexivity.
  - apply (proj2 (proj2 (save_posted_title_failsafe (str "A")
                           (World (JsonTitles [str "B"]) FailsAfterOpen [])))
             (list_to_set [str "B"])); reflexivity.
Defined.

(** ** The image probe and the publisher *)

(** X8. The image check never raises and leaves the ledger alone.  For no
    URL or an empty one it answers false without any request; otherwise it
    makes exactly one GET and answers true exactly when that GET comes
    back with a good status and a content type that starts with "image/". *)
Theorem validate_image_url_spec net img w :
  validate_image_url net img w
  = (Return (match img with
             | Some ((_ :: _) as url) => probe_ok net (trace w) url
             | _ => false
             end),
     World (ledger w) (writable w)
       (trace w ++ match img with
                   | Some ((_ :: _) as url) => [EvProbe url]
                   | _ => []
                   end)).
Proof.
  unfold validate_image_url, session_get_image, probe_ok. monadic.
  destruct img as [[|c url]|]; rewrite ?app_nil_r; try by destruct w.
  destruct (get_image net (trace w) (c :: url)) as [|[] ct]; monadic;
    try reflexivity.
  by destruct (startswith _ ct).
Qed.

Lemma existsb_is_photo_save t f wr :
  existsb is_photo (save_events t f wr) = false.
Proof. unfold save_events. by destruct (saved t f wr). Qed.

Ltac close_photo_path :=
  monadic; rewrite ?save_posted_title_eq; cbn [ledger writable trace];
  rewrite <- ?app_assoc; cbn [app];
  match goal with
  | |- exists evs, (_, World _ _ (_ ++ ?e)) = _ /\ _ => exists e
  end;
  split; [reflexivity|]; cbn [existsb is_photo orb];
  rewrite ?existsb_is_photo_save; reflexivity.

Lemma send_to_telegram_photo net t img sum w :
  exists evs,
    send_to_telegram net t img sum w
    = (Return tt, World (ledger (snd (send_to_telegram net t img sum w)))
                    (writable w) (trace w ++ evs))
    /\ existsb is_photo evs
       = match img with
         | Some ((_ :: _) as url) =>
             probe_ok net (trace w ++ [EvPublish t img sum]) url
         | _ => false
         end.
Proof.
  unfold send_to_telegram, validate_image_url, session_get_image,
    session_post_photo, session_post_message, probe_ok.
  monadic.
  destruct img as [[|c url]|].
  - destruct (post_message _ _ _) as [|[] []]; close_photo_path.
  - destruct (get_image _ _ _) as [|[] ct]; monadic.
    + destruct (post_message _ _ _) as [|[] []]; close_photo_path.
    + destruct (startswith _ _); monadic; cbn [negb].
      * destruct (post_photo _ _ _ _) as [|[] []]; monadic.
        -- destruct (post_message _ _ _) as [|[] []]; close_photo_path.
        -- close_photo_path.
        -- destruct (post_message _ _ _) as [|[] []]; close_photo_path.
      * destruct (post_message _ _ _) as [|[] []]; close_photo_path.
    + destruct (post_message _ _ _) as [|[] []]; close_photo_path.
  - destruct (post_message _ _ _) as [|[] []]; close_photo_path.
Qed.

(** X9. The publisher makes a photo call exactly when it was given a
    non-empty image URL and the probe of that URL found an image; in every
    other case the entry goes out as text only. *)
Theorem photo_call_iff_valid_image net t img sum w :
  existsb is_photo
    (events_since w (snd (send_to_telegram net t img sum w)))
  = match img with
    | Some ((_ :: _) as url) =>
        probe_ok net (trace w ++ [EvPublish t img sum]) url
    | _ => false
    end.
Proof.
  destruct (send_to_telegram_photo net t img sum w) as (evs & Hrun & Hph).
  rewrite Hrun at 1. by erewrite events_since_app by reflexivity.
Qed.

(** X10. One call of the publisher makes one or two transport calls, of
    which at most one is accepted, and writes the ledger at most once and
    only when a call was accepted: an entry is never posted twice by one
    call. *)
Theorem publisher_posts_at_most_once net t img sum w :
  let evs := events_since w (snd (send_to_telegram net t img sum w)) in
  (1 <= count is_call evs <= 2)%nat
  /\ (count is_accepted evs <= 1)%nat
  /\ (count is_write evs <= count is_accepted evs)%nat.
Proof.
  destruct (send_to_telegram_spec net t img sum w) as (evs & Hrun & Hevs).
  rewrite Hrun. cbn [snd]. erewrite events_since_app by reflexivity.
  cbn zeta. unfold count.
  destruct Hevs as [url ?|url ok ?|url ok ?|ok ?]; try destruct ok;
    unfold save_events; destruct (saved t (ledger w) (writable w));
    simpl; lia.
Qed.

(** X29. When the writes of the ledger fail behind the open, a delivery
    wipes the ledger: after a call of the publisher in which the transport
    accepted the title, the ledger file holds no valid JSON and the next
    load gives the empty set, so that the titles recorded before are
    eligible again; no write is recorded.  (The ledger loads before the
    call.) *)
Theorem failed_write_empties_ledger net t img sum w P :
  fst (load_posted_titles w) = Return P ->
  writable w = FailsAfterOpen ->
  let w' := snd (send_to_telegram net t img sum w) in
  delivered t (events_since w w') = true ->
  ledger w' = Malformed
  /\ fst (load_posted_titles w') = Return ∅
  /\ count is_write (events_since w w') = 0%nat.
Proof.
  intros HP%load_titles_of Hwr.
  destruct (send_to_telegram_spec net t img sum w) as (evs & Hrun & Hevs).
  cbn zeta. rewrite Hrun. cbn [snd]. erewrite events_since_app by reflexivity.
  intros Hdel. rewrite load_posted_titles_eq. cbn [ledger fst].
  rewrite Hdel. unfold save_ledger. rewrite HP, Hwr.
  repeat split. unfold count.
  destruct Hevs as [url ?|url ok ?|url ok ?|ok ?]; try destruct ok;
    unfold save_events, saved; rewrite ?HP, ?Hwr; reflexivity.
Qed.

Lemma failed_write_empties_ledger_witness :
  let w := World (JsonTitles [str "B"]) FailsAfterOpen [] in
  let w' := snd (send_to_telegram newsroom (str "A") None (str "Soon.") w) in
  ledger w' = Malformed
  /\ fst (load_posted_titles w') = Return ∅
  /\ count is_write (events_since w w') = 0%nat.
Proof.
  intros w.
  apply (failed_write_empties_ledger newsroom (str "A") None (str "Soon.") w
           (list_to_set [str "B"])); reflexivity.
Defined.

(** ** The enricher *)

Lemma fetch_article_details_once_image net url a w r w' :
  fetch_article_details_once net url a w = (Return r, w') ->
  image r
  = match thumbnail a with
    | Some (Some ((_ :: _) as img_url)) =>
        Some (if negb (startswith (str "http") img_url)
              then BASE_URL ++ img_url else img_url)
    | _ => None
    end.
Proof.
  unfold fetch_article_details_once, bind at 1.
  match goal with |- context [match ?m w with _ => _ end] =>
    destruct (m w) as [[x|e] w1] end; [|discriminate].
  unfold ret. by intros [= <- _].
Qed.

(** X11. Whenever the enricher returns, the image it reports is there
    exactly when the card has a thumbnail with a non-empty data-src, and it
    is an absolute URL: it starts with "http", the site root being put in
    front of a relative path. *)
Theorem fetched_image_is_absolute net url a w r w' :
  fetch_article_details net url a w = (Return r, w') ->
  (image r = None <-> has_thumbnail a = false)
  /\ (forall u, image r = Some u -> startswith (str "http") u = true).
Proof.
  intros (w0 & w1 & Honce)%attempts_returned.
  rewrite (fetch_article_details_once_image _ _ _ _ _ _ Honce).
  unfold has_thumbnail.
  destruct (thumbnail a) as [[[|c src]|]|]; try (split; [done|discriminate]).
  split; [done|].
  assert (Habs : startswith (str "http")
                   (if negb (startswith (str "http") (c :: src))
                    then BASE_URL ++ c :: src else c :: src) = true).
  { destruct (startswith (str "http") (c :: src)) eqn:E; [exact E|].
    reflexivity. }
  intros u Hu. congruence.
Qed.

Lemma fetched_image_is_absolute_witness :
  (image {| image := Some (BASE_URL ++ str "/img/a.jpg");
            summary := str "Hello world" |} = None
   <-> has_thumbnail card_a = false)
  /\ (forall u,
        image {| image := Some (BASE_URL ++ str "/img/a.jpg");
                 summary := str "Hello world" |} = Some u ->
        startswith (str "http") u = true).
Proof.
  apply (fetched_image_is_absolute newsroom (Some (BASE_URL ++ str "/a"))
           card_a fresh _
           (snd (fetch_article_details newsroom
                   (Some (BASE_URL ++ str "/a")) card_a fresh))).
  vm_compute. reflexivity.
Defined.

(** X12. When the GET of the article page fails in the transport or by its
    HTTP status, the enricher returns at once with the summary "No summary
    available.": one GET, no wait, no second attempt, and nothing
    raised. *)
Theorem fetch_article_details_network_error net c url a w :
  succeeded (get_detail net (trace w) (c :: url)) = false ->
  exists r,
    fetch_article_details net (Some (c :: url)) a w
    = (Return r,
       World (ledger w) (writable w) (trace w ++ [EvGetDetail (c :: url)]))
    /\ summary r = str "No summary available.".
Proof.
  intros Hfail. eexists. split.
  - unfold fetch_article_details. apply retry_returns.
    unfold fetch_article_details_once, session_get_detail. monadic.
    destruct (get_detail net (trace w) (c :: url)) as [|[] body];
      simpl in *; try reflexivity.
    discriminate Hfail.
  - reflexivity.
Qed.

Lemma fetch_article_details_network_error_witness :
  exists r,
    fetch_article_details offline (Some (str "https://x/a")) card_a fresh
    = (Return r, World Missing Writable [EvGetDetail (str "https://x/a")])
    /\ summary r = str "No summary available.".
Proof.
  apply (fetch_article_details_network_error offline 104%N
           (str "ttps://x/a") card_a fresh).
  reflexivity.
Defined.

(** X13. For an entry without a link (no article URL, or an empty one) the
    enricher makes no request at all: it returns the default summary and
    leaves the state as it was. *)
Theorem fetch_article_details_without_link net url a w :
  url = None \/ url = Some [] ->
  exists r,
    fetch_article_details net url a w = (Return r, w)
    /\ summary r = str "No summary available.".
Proof.
  intros [-> | ->]; eexists;
    (split;
     [unfold fetch_article_details; apply retry_returns; reflexivity
     |reflexivity]).
Qed.

Lemma fetch_article_details_without_link_witness :
  exists r,
    fetch_article_details newsroom None card_b fresh = (Return r, fresh)
    /\ summary r = str "No summary available.".
Proof.
  apply (fetch_article_details_without_link newsroom None card_b fresh).
  left. reflexivity.
Defined.

(** ** The loop over the news cards *)

(** X14. When the loop over the cards returns, it has changed nothing and
    its entries are exactly the cards dated today, in the order of the
    page, each with the title and the link of its card and no details
    yet. *)
Theorem scan_articles_todays_cards cfg arts w nl w' :
  scan_articles cfg arts [] w = (Return nl, w') ->
  w' = w
  /\ List.map art nl = List.filter (dated_today cfg) arts
  /\ Forall (λ n, card_entry (art n) = Some n) nl.
Proof.
  rewrite scan_articles_eq. destruct (first_raise cfg arts); [discriminate|].
  intros [= <- <-]. split; [reflexivity|]. cbn [app].
  apply todays_entries.
Qed.

Lemma scan_articles_todays_cards_witness :
  snd (scan_articles any_day [card_a; card_b; card_c] [] fresh) = fresh
  /\ List.map art abc_news
     = List.filter (dated_today any_day) [card_a; card_b; card_c]
  /\ Forall (λ n, card_entry (art n) = Some n) abc_news.
Proof.
  apply (scan_articles_todays_cards any_day [card_a; card_b; card_c] fresh
           abc_news).
  vm_compute. reflexivity.
Defined.

(** X15. One card whose time tag has no datetime attribute, or one card of
    today whose link has no href, makes the whole loop raise, so that no
    entry of the page is returned and the state is as before.  The
    exception is [KeyError], unless a card whose date is out of range
    stands before it and raises [OverflowError] first; with no such card on
    the page it is [KeyError]. *)
Theorem scan_articles_malformed_card cfg arts acc w :
  existsb (malformed cfg) arts = true ->
  exists e,
    scan_articles cfg arts acc w = (Raise e, w)
    /\ (e = KeyError \/ e = OverflowError)
    /\ (existsb (overflowing cfg) arts = false -> e = KeyError).
Proof.
  intros (e & He & Hcases)%first_raise_malformed.
  exists e. by rewrite scan_articles_eq, He.
Qed.

Lemma scan_articles_malformed_card_witness :
  exists e,
    scan_articles any_day
      [card_a; {| h3 := h3 card_b; time_tag := Some None; thumbnail := None |}]
      [] fresh
    = (Raise e, fresh)
    /\ (e = KeyError \/ e = OverflowError)
    /\ (existsb (overflowing any_day)
          [card_a;
           {| h3 := h3 card_b; time_tag := Some None; thumbnail := None |}]
        = false -> e = KeyError).
Proof.
  apply (scan_articles_malformed_card any_day
           [card_a;
            {| h3 := h3 card_b; time_tag := Some None; thumbnail := None |}]
           [] fresh).
  reflexivity.
Defined.

(** ** The feed fetch and the retry policy *)

(** X16. Whatever the feed fetch returns is either the empty list or the
    cards dated today of a page that the site served with a good status,
    in the order of that page, each with the title and the link of its
    card and no details yet. *)
Theorem fetch_anime_news_todays_cards net cfg w nl w' :
  fetch_anime_news net cfg w = (Return nl, w') ->
  nl = []
  \/ exists h arts,
       get_feed net h = Status true (Parsed arts)
       /\ List.map art nl = List.filter (dated_today cfg) arts
       /\ Forall (λ n, card_entry (art n) = Some n) nl.
Proof.
  intros (w0 & w1 & Honce)%attempts_returned.
  rewrite fetch_anime_news_once_eq in Honce.
  destruct (get_feed net (trace w0)) as [|[] [|arts]] eqn:Hget;
    try (injection Honce as <- _; by left); try discriminate Honce.
  destruct (first_raise cfg arts); [discriminate Honce|].
  injection Honce as <- _. right. exists (trace w0), arts.
  split; [exact Hget|]. apply todays_entries.
Qed.

Lemma fetch_anime_news_todays_cards_witness :
  abc_news = []
  \/ exists h arts,
       get_feed newsroom h = Status true (Parsed arts)
       /\ List.map art abc_news = List.filter (dated_today any_day) arts
       /\ Forall (λ n, card_entry (art n) = Some n) abc_news.
Proof.
  apply (fetch_anime_news_todays_cards newsroom any_day fresh abc_news
           (snd (fetch_anime_news newsroom any_day fresh))).
  vm_compute. reflexivity.
Defined.

Lemma attempts_all_raise {A} (f : M A) wait :
  (forall w, exists e w', f w = (Raise e, w')) ->
  forall n a w, exists w', attempts n a wait f w = (Raise RetryError, w').
Proof.
  intros Hf. induction n as [|n IH]; intros a w; [by eexists|].
  simpl. destruct (Hf w) as (e & w1 & ->).
  destruct n as [|n]; [by eexists|].
  unfold bind, sleep, emit. apply IH.
Qed.

(** While every page the site serves makes the loop over the cards raise,
    the feed fetch uses up its attempts and the run ends with
    [RetryError]. *)
Lemma raising_page_aborts_run net cfg s w :
  (forall h, exists arts e,
      get_feed net h = Status true (Parsed arts)
      /\ first_raise cfg arts = Some e) ->
  fst (fetch_anime_news net cfg w) = Raise RetryError
  /\ fst (run_once net cfg s w) = Raise RetryError
  /\ ledger (snd (run_once net cfg s w)) = ledger w.
Proof.
  intros Hbad.
  destruct (attempts_all_raise (fetch_anime_news_once net cfg)
              (wait_exponential 1 4 10)) with (n := 3%nat) (a := 1) (w := w)
    as (w' & Hraise).
  { intros w0. rewrite fetch_anime_news_once_eq.
    destruct (Hbad (trace w0)) as (arts & e & -> & ->).
    by eexists _, _. }
  fold (retry 3 (wait_exponential 1 4 10) (fetch_anime_news_once net cfg))
    in Hraise.
  fold (fetch_anime_news net cfg) in Hraise.
  destruct (frames_fetch_anime_news net cfg w) as (evs & E & _).
  unfold run_once, bind. rewrite Hraise in *. simpl in *.
  by rewrite E.
Qed.

(** X17. While the homepage carries a card that makes the loop raise (a
    time tag without datetime, a link of today without href), the feed
    fetch raises [RetryError] after its attempts, and the run ends with
    that exception: the handler of the fetch takes network errors only.
    The ledger is as before. *)
Theorem malformed_card_aborts_run net cfg s w :
  (forall h, exists arts,
      get_feed net h = Status true (Parsed arts)
      /\ existsb (malformed cfg) arts = true) ->
  fst (fetch_anime_news net cfg w) = Raise RetryError
  /\ fst (run_once net cfg s w) = Raise RetryError
  /\ ledger (snd (run_once net cfg s w)) = ledger w.
Proof.
  intros Hbad. apply raising_page_aborts_run. intros h.
  destruct (Hbad h) as (arts & Hget & (e & He & _)%first_raise_malformed).
  by exists arts, e.
Qed.

Lemma malformed_card_aborts_run_witness :
  let bad : network := {|
    get_feed := fun _ =>
      Status true
        (Parsed
           [card_a;
            {| h3 := h3 card_b; time_tag := Some None; thumbnail := None |}]);
    get_detail := get_detail newsroom;
    get_image := get_image newsroom;
    post_photo := post_photo newsroom;
    post_message := post_message newsroom |} in
  fst (fetch_anime_news bad any_day fresh) = Raise RetryError
  /\ fst (run_once bad any_day out_of_order fresh) = Raise RetryError
  /\ ledger (snd (run_once bad any_day out_of_order fresh)) = ledger fresh.
Proof.
  intros bad.
  apply (malformed_card_aborts_run bad any_day out_of_order fresh).
  intros h. eexists. split; reflexivity.
Defined.

(** X28. While the homepage carries a card whose date has no local date
    because it is out of range (a valid ISO date at the edge of the years 1
    to 9999), the feed fetch raises [RetryError] after its attempts and the
    run ends with that exception: the loop over the cards catches
    [ValueError] only.  The ledger is as before. *)
Theorem out_of_range_date_aborts_run net cfg s w :
  (forall h, exists arts,
      get_feed net h = Status true (Parsed arts)
      /\ existsb (overflowing cfg) arts = true) ->
  fst (fetch_anime_news net cfg w) = Raise RetryError
  /\ fst (run_once net cfg s w) = Raise RetryError
  /\ ledger (snd (run_once net cfg s w)) = ledger w.
Proof.
  intros Hbad. apply raising_page_aborts_run. intros h.
  destruct (Hbad h) as (arts & Hget & (e & He)%first_raise_overflowing).
  by exists arts, e.
Qed.

Lemma out_of_range_date_aborts_run_witness :
  let old : network := {|
    get_feed := fun _ => Status true (Parsed [card_a; card_year_one]);
    get_detail := get_detail newsroom;
    get_image := get_image newsroom;
    post_photo := post_photo newsroom;
    post_message := post_message newsroom |} in
  fst (fetch_anime_news old year_one fresh) = Raise RetryError
  /\ fst (run_once old year_one out_of_order fresh) = Raise RetryError
  /\ ledger (snd (run_once old year_one out_of_order fresh)) = ledger fresh.
Proof.
  intros old.
  apply (out_of_range_date_aborts_run old year_one out_of_order fresh).
  intros h. eexists. split; reflexivity.
Defined.

Lemma count_app p evs1 evs2 :
  count p (evs1 ++ evs2) = (count p evs1 + count p evs2)%nat.
Proof. unfold count. by rewrite List.filter_app, length_app. Qed.

Lemma count_all p evs :
  Forall (λ e, p e = true) evs -> count p evs = length evs.
Proof.
  unfold count. induction 1 as [|e evs He _ IH]; [reflexivity|].
  simpl. rewrite He. simpl. by rewrite IH.
Qed.

Lemma attempts_events {A} (f : M A) (p : event -> bool) wait (m : nat) :
  (forall w, exists evs,
      snd (f w) = World (ledger w) (writable w) (trace w ++ evs)
      /\ (m <= length evs <= 1)%nat /\ Forall (λ e, p e = true) evs) ->
  (forall z, p (EvSleep z) = false) ->
  (forall a, 4 <= wait a <= 10) ->
  forall n a w, exists evs,
    snd (attempts n a wait f w)
    = World (ledger w) (writable w) (trace w ++ evs)
    /\ (count p evs <= n)%nat
    /\ (n <> 0%nat -> m <= count p evs)%nat
    /\ (length evs <= count p evs + (n - 1))%nat
    /\ Forall (λ e, p e = true \/ exists z, e = EvSleep z /\ 4 <= z <= 10)
         evs.
Proof.
  intros Hf Hp Hwait. induction n as [|n IH]; intros a w.
  - exists []. rewrite app_nil_r. repeat split; auto; [by destruct w|done].
  - simpl. destruct (Hf w) as (evs1 & E1 & Hlen1 & Hall1).
    pose proof (count_all p evs1 Hall1) as Hc1.
    assert (Hall1' : Forall (λ e, p e = true
              \/ exists z, e = EvSleep z /\ 4 <= z <= 10) evs1).
    { eapply Forall_impl; [exact Hall1|]. by left. }
    destruct (f w) as [[x|e] w1]; simpl in E1; subst w1.
    + exists evs1. repeat split; auto; lia.
    + destruct n as [|n]; [exists evs1; repeat split; auto; lia|].
      unfold bind, sleep, emit. cbn [ledger writable trace].
      destruct (IH (a + 1)
                  (World (ledger w) (writable w)
                     ((trace w ++ evs1) ++ [EvSleep (wait a)])))
        as (evs2 & E2 & Hcount2 & _ & Hlen2 & Hall2).
      exists (evs1 ++ EvSleep (wait a) :: evs2). rewrite E2.
      cbn [ledger writable trace]. rewrite <- !app_assoc. cbn [app].
      split; [reflexivity|].
      rewrite count_app, length_app.
      change (count p (EvSleep (wait a) :: evs2))
        with (length (if p (EvSleep (wait a))
                      then EvSleep (wait a) :: List.filter p evs2
                      else List.filter p evs2)).
      rewrite Hp. fold (count p evs2). cbn [length].
      repeat split; try lia.
      apply Forall_app. split; [exact Hall1'|].
      constructor; [|exact Hall2]. right. eauto.
Qed.

(** X18. The feed fetch makes at least one and at most three GETs of the
    homepage and waits at most twice between them, each wait between 4 and
    10 seconds; it does nothing else and leaves the ledger alone. *)
Theorem fetch_anime_news_bounded net cfg w :
  exists evs,
    snd (fetch_anime_news net cfg w)
    = World (ledger w) (writable w) (trace w ++ evs)
    /\ (1 <= count is_get_feed evs <= 3)%nat
    /\ (length evs <= count is_get_feed evs + 2)%nat
    /\ Forall (λ e, is_get_feed e = true
                    \/ exists z, e = EvSleep z /\ 4 <= z <= 10) evs.
Proof.
  destruct (attempts_events (fetch_anime_news_once net cfg) is_get_feed
              (wait_exponential 1 4 10) 1)
    with (n := 3%nat) (a := 1) (w := w)
    as (evs & E & Hcount & Hlow & Hlen & Hall).
  { intros w0. exists [EvGetFeed]. rewrite fetch_anime_news_once_eq.
    repeat split; auto. }
  { reflexivity. }
  { apply wait_exponential_bounds. }
  exists evs. repeat split; auto.
Qed.

(** X19. The enricher makes at most three GETs of the article page and
    waits at most twice between them, each wait between 4 and 10 seconds;
    it does nothing else and leaves the ledger alone. *)
Theorem fetch_article_details_bounded net url a w :
  exists evs,
    snd (fetch_article_details net url a w)
    = World (ledger w) (writable w) (trace w ++ evs)
    /\ (count is_get_detail evs <= 3)%nat
    /\ (length evs <= count is_get_detail evs + 2)%nat
    /\ Forall (λ e, is_get_detail e = true
                    \/ exists z, e = EvSleep z /\ 4 <= z <= 10) evs.
Proof.
  destruct (attempts_events (fetch_article_details_once net url a)
              is_get_detail (wait_exponential 1 4 10) 0)
    with (n := 3%nat) (a := 1) (w := w)
    as (evs & E & Hcount & _ & Hlen & Hall).
  { intros w0. unfold fetch_article_details_once, session_get_detail.
    monadic. destruct url as [[|c url]|].
    - exists []. rewrite app_nil_r.
      split; [by destruct w0|]. split; [simpl; lia|constructor].
    - exists [EvGetDetail (c :: url)].
      split; [|split; [simpl; lia|by repeat constructor]].
      destruct (get_detail net (trace w0) (c :: url)) as [|[] [|doc]];
        try reflexivity.
      destruct (meat doc) as [[first_p|]|]; try reflexivity.
      destruct (content doc) as [[first_p|]|]; reflexivity.
    - exists []. rewrite app_nil_r.
      split; [by destruct w0|]. split; [simpl; lia|constructor]. }
  { reflexivity. }
  { apply wait_exponential_bounds. }
  exists evs. repeat split; auto.
Qed.

(** ** The whole run *)

Lemma count_none p evs : existsb p evs = false -> count p evs = 0%nat.
Proof.
  unfold count. induction evs as [|e evs IH]; [reflexivity|]. simpl.
  destruct (p e); [discriminate|]. exact IH.
Qed.

Lemma count_le p q evs :
  (forall e, p e = true -> q e = true) -> (count p evs <= count q evs)%nat.
Proof.
  intros Hpq. unfold count. induction evs as [|e evs IH]; [reflexivity|].
  simpl. destruct (p e) eqn:Hp.
  - rewrite (Hpq e Hp). simpl. lia.
  - destruct (q e); simpl; lia.
Qed.

Lemma count_accepted_for_none t evs :
  delivered t evs = false -> count (accepted_for t) evs = 0%nat.
Proof. apply count_none. Qed.

Lemma send_events_accepted_once t img sum f wr es t' :
  send_events t img sum f wr es -> (count (accepted_for t') es <= 1)%nat.
Proof.
  intros Hes. transitivity (count is_accepted es).
  - apply count_le. intros e He. apply bool_decide_eq_true in He.
    unfold is_accepted. by rewrite He.
  - unfold count.
    destruct Hes as [url ?|url ok ?|url ok ?|ok ?]; try destruct ok;
      unfold save_events; destruct (saved t f wr); simpl; lia.
Qed.

(** The loop adds to the ledger only titles for which a call was
    accepted, and no title leaves the ledger unless a write fails behind
    the open. *)
Lemma publish_run_added wr f nl evs f' r :
  publish_run wr f nl evs f' r ->
  forall P, titles_of f = Some P ->
    exists P',
      titles_of f' = Some P' /\ (wr <> FailsAfterOpen -> P ⊆ P')
      /\ forall t, t ∈ P' -> t ∈ P \/ delivered t evs = true.
Proof.
  induction 1 as [f|f P0 n rest evs f' r HP0 Hin _ IH
                 |f P0 n d rest es evs f' r HP0 Hnew Hd Hes _ IH
                 |f P0 n rest HP0 Hnew Hd];
    intros P HP.
  - exists P. repeat split; auto.
  - by apply IH.
  - destruct (delivered (title n) es) eqn:Hdel.
    + destruct (next_ledger_titles (title n) f wr P true HP)
        as (P1 & HP1 & Hsub & Hsup & _).
      destruct (IH P1 HP1) as (P' & HP' & Hsub' & Hadd).
      exists P'. split; [exact HP'|]. split.
      { intros Hwr. specialize (Hsub Hwr). specialize (Hsub' Hwr).
        set_solver. }
      intros t Ht. rewrite delivered_app.
      destruct (Hadd t Ht) as [Hin|Hd'].
      * apply Hsup, elem_of_union in Hin as [Hin|Hin]; [by left|].
        apply elem_of_singleton in Hin as ->. right. by rewrite Hdel.
      * right. rewrite delivered_cons_other by reflexivity.
        rewrite Hd'. apply orb_true_r.
    + destruct (IH P HP) as (P' & HP' & Hsub' & Hadd).
      exists P'. split; [exact HP'|]. split; [exact Hsub'|].
      intros t Ht. destruct (Hadd t Ht) as [Hin|Hd']; [by left|].
      right. rewrite delivered_app, delivered_cons_other by reflexivity.
      rewrite Hd'. apply orb_true_r.
  - exists P. repeat split; auto.
Qed.

(** X20. Over a whole run that starts with a ledger that loads, whether the
    run returns or raises, the ledger still loads at the end, and every
    title in it was there at the start or had a transport call accepted
    during the run: the run never records a title it did not deliver.  No
    title has left the ledger either, unless its writes fail behind the
    open, which empties the file. *)
Theorem run_records_only_deliveries net cfg s w P :
  fst (load_posted_titles w) = Return P ->
  exists P',
    fst (load_posted_titles (snd (run_once net cfg s w))) = Return P'
    /\ (writable w <> FailsAfterOpen -> P ⊆ P')
    /\ forall t, t ∈ P' ->
         t ∈ P
         \/ delivered t (events_since w (snd (run_once net cfg s w))) = true.
Proof.
  intros HP%load_titles_of.
  destruct (fetch_anime_news net cfg w) as [[nl|e] w1] eqn:Hfetch.
  - destruct (run_once_spec net cfg s w nl w1 P Hfetch HP)
      as (evs1 & evs2 & evs3 & f' & r & Hrun & Hq1 & Hq2 & Hpr).
    destruct (publish_run_added _ _ _ _ _ _ Hpr P HP)
      as (P' & HP' & Hsub & Hadd).
    rewrite Hrun. cbn [snd]. erewrite events_since_app by reflexivity.
    exists P'. rewrite load_posted_titles_eq. cbn [ledger fst].
    rewrite HP'. repeat split; auto.
    intros t Ht. destruct (Hadd t Ht) as [?|Hd]; [by left|right].
    rewrite !delivered_app, Hd. by rewrite !orb_true_r.
  - destruct (frames_fetch_anime_news net cfg w) as (evs1 & E1 & Hq1).
    unfold run_once, bind. rewrite Hfetch in *. simpl in *. subst w1.
    exists P. rewrite load_posted_titles_eq. cbn [ledger fst]. rewrite HP.
    repeat split; auto.
Qed.

Lemma run_records_only_deliveries_witness :
  exists P',
    fst (load_posted_titles
           (snd (run_once newsroom any_day out_of_order fresh)))
    = Return P'
    /\ (writable fresh <> FailsAfterOpen -> (∅ : gset pystr) ⊆ P')
    /\ forall t, t ∈ P' ->
         t ∈ (∅ : gset pystr)
         \/ delivered t
              (events_since fresh
                 (snd (run_once newsroom any_day out_of_order fresh)))
            = true.
Proof.
  apply (run_records_only_deliveries newsroom any_day out_of_order fresh ∅).
  reflexivity.
Defined.

(** X21. When the ledger file cannot be loaded (unreadable, not UTF-8, or
    JSON that is no list) and the feed has an entry, the run ends with the exception of
    the load in the state the feed fetch left: nothing is submitted to the
    enricher and nothing is published. *)
Theorem unloadable_ledger_aborts_run net cfg s w e n nl w1 :
  fst (load_posted_titles w) = Raise e ->
  fetch_anime_news net cfg w = (Return (n :: nl), w1) ->
  run_once net cfg s w = (Raise e, w1).
Proof.
  intros Hload Hfetch.
  destruct (frames_fetch_anime_news net cfg w) as (evs1 & E1 & _).
  rewrite Hfetch in E1. simpl in E1.
  rewrite load_posted_titles_eq in Hload. simpl in Hload.
  destruct (titles_of (ledger w)) as [P|] eqn:HP; [discriminate|].
  injection Hload as <-.
  unfold run_once, bind. rewrite Hfetch.
  rewrite fetch_selected_articles_unreadable by by rewrite E1.
  by rewrite E1.
Qed.

Lemma unloadable_ledger_aborts_run_witness :
  run_once newsroom any_day out_of_order (World Unreadable Writable [])
  = (Raise OSError, World Unreadable Writable [EvGetFeed]).
Proof.
  apply (unloadable_ledger_aborts_run newsroom any_day out_of_order
           (World Unreadable Writable []) OSError
           (entry "A" "/a" card_a)
           [entry "B" "/b" card_b; entry "C" "/c" card_c]).
  - reflexivity.
  - vm_compute. reflexivity.
Defined.

(** With a ledger that can be written, the loop has at most one accepted
    call for a title, and none for a title of the ledger. *)
Lemma publish_run_once_per_title f nl evs f' r :
  publish_run Writable f nl evs f' r ->
  forall P t, titles_of f = Some P ->
    (count (accepted_for t) evs <= 1)%nat
    /\ (t ∈ P -> count (accepted_for t) evs = 0%nat).
Proof.
  induction 1 as [f|f P0 n rest evs f' r HP0 Hin _ IH
                 |f P0 n d rest es evs f' r HP0 Hnew Hd Hes _ IH
                 |f P0 n rest HP0 Hnew Hd];
    intros P t HP.
  - split; [unfold count; simpl; lia|done].
  - by apply IH.
  - assert (P0 = P) as -> by congruence.
    rewrite count_app.
    change (count (accepted_for t) (EvSleep 2 :: evs))
      with (count (accepted_for t) evs).
    destruct (next_ledger_titles (title n) f Writable P
                (delivered (title n) es) HP)
      as (P1 & HP1 & Hsub & _ & Hin1).
    specialize (Hsub ltac:(discriminate)).
    destruct (IH P1 t HP1) as [Hle Hzero].
    pose proof (send_events_accepted_once _ _ _ _ _ _ t Hes) as Hes1.
    destruct (delivered t es) eqn:Hdel.
    + assert (t = title n) as -> by by eapply send_events_delivered.
      split; [|done]. rewrite Hzero; [lia|]. by apply Hin1.
    + rewrite (count_accepted_for_none t es Hdel). split; [lia|].
      intros Ht. rewrite Hzero; [lia|]. by apply Hsub.
  - split; [unfold count; simpl; lia|done].
Qed.

(** X22. In a run that starts with a ledger that loads and can be written,
    no title has more than one accepted transport call, even when the feed
    carries the same title twice: once delivered, a title is in the ledger
    before the next entry is looked up. *)
Theorem run_delivers_title_at_most_once net cfg s w P t :
  fst (load_posted_titles w) = Return P ->
  writable w = Writable ->
  (count (accepted_for t)
     (events_since w (snd (run_once net cfg s w))) <= 1)%nat.
Proof.
  intros HP%load_titles_of Hwr.
  destruct (fetch_anime_news net cfg w) as [[nl|e] w1] eqn:Hfetch.
  - destruct (run_once_spec net cfg s w nl w1 P Hfetch HP)
      as (evs1 & evs2 & evs3 & f' & r & Hrun & Hq1 & Hq2 & Hpr).
    rewrite Hwr in Hpr.
    destruct (publish_run_once_per_title _ _ _ _ _ Hpr P t HP) as [Hle _].
    rewrite Hrun. cbn [snd]. erewrite events_since_app by reflexivity.
    rewrite !count_app.
    rewrite (count_accepted_for_none t evs1)
      by by apply delivered_untitled, quiet_untitled.
    rewrite (count_accepted_for_none t evs2)
      by by apply delivered_untitled, quiet_untitled.
    rewrite (count_accepted_for_none t (List.map _ _))
      by apply delivered_submits.
    lia.
  - destruct (frames_fetch_anime_news net cfg w) as (evs1 & E1 & Hq1).
    unfold run_once, bind. rewrite Hfetch in *. simpl in *. subst w1.
    erewrite events_since_app by reflexivity.
    rewrite (count_accepted_for_none t evs1)
      by by apply delivered_untitled, quiet_untitled.
    lia.
Qed.

Lemma run_delivers_title_at_most_once_witness :
  (count (accepted_for (str "A"))
     (events_since fresh
        (snd (run_once
                {| get_feed := fun _ =>
                     Status true (Parsed [card_a; card_a]);
                   get_detail := get_detail newsroom;
                   get_image := get_image newsroom;
                   post_photo := post_photo newsroom;
                   post_message := post_message newsroom |}
                any_day out_of_order fresh))) <= 1)%nat.
Proof.
  apply (run_delivers_title_at_most_once _ any_day out_of_order fresh ∅
           (str "A")); reflexivity.
Defined.

Lemma publish_run_paced wr f nl evs f' r :
  publish_run wr f nl evs f' r ->
  count is_pause evs = count is_publish evs
  /\ (count is_publish evs <= length nl)%nat.
Proof.
  induction 1 as [f|f P0 n rest evs f' r HP0 Hin _ [IH1 IH2]
                 |f P0 n d rest es evs f' r HP0 Hnew Hd Hes _ [IH1 IH2]
                 |f P0 n rest HP0 Hnew Hd].
  - by split.
  - split; [exact IH1|]. simpl. lia.
  - rewrite !count_app.
    change (count is_pause (EvSleep 2 :: evs)) with (S (count is_pause evs)).
    change (count is_publish (EvSleep 2 :: evs)) with (count is_publish evs).
    assert (count is_pause es = 0%nat /\ count is_publish es = 1%nat)
      as [-> ->].
    { unfold count.
      destruct Hes as [url ?|url ok ?|url ok ?|ok ?]; try destruct ok;
        unfold save_events; destruct (saved (title n) f wr); by split. }
    simpl. split; lia.
  - split; [reflexivity|]. unfold count. simpl. lia.
Qed.

(** X23. The publishing loop pauses two seconds after every call of the
    publisher and at no other time: among its events there are as many
    pauses as publisher calls, at most one for each entry of the list,
    whether the loop runs to its end or stops with [KeyError] at an entry
    without details.  It runs to its end when every entry that is not in
    the ledger carries its details, as after the enrichment stage, and the
    writes of the ledger do not fail behind the open.  (The ledger loads
    when the loop starts.) *)
Theorem publish_all_paced net nl w P :
  fst (load_posted_titles w) = Return P ->
  let w' := snd (publish_all net nl w) in
  count is_pause (events_since w w') = count is_publish (events_since w w')
  /\ (count is_publish (events_since w w') <= length nl)%nat
  /\ (writable w <> FailsAfterOpen ->
      Forall (λ n, title n ∈ P \/ is_Some (details n)) nl ->
      fst (publish_all net nl w) = Return tt).
Proof.
  intros HP%load_titles_of.
  destruct (publish_all_spec net nl w P HP) as (evs & f' & r & Hrun & Hpr).
  cbn zeta. rewrite Hrun. cbn [fst snd].
  erewrite events_since_app by reflexivity.
  destruct (publish_run_paced _ _ _ _ _ _ Hpr) as [Hp1 Hp2].
  repeat split; [exact Hp1|exact Hp2|].
  intros Hwr Hdet. eapply publish_run_returns; [exact Hpr|exact HP|].
  eapply Forall_impl; [exact Hdet|]. intros n [?|?]; auto.
Qed.

Lemma publish_all_paced_witness :
  let nl := [set_details failed_details (entry "A" "/a" card_a);
             entry "B" "/b" card_b] in
  let w := World (JsonTitles [str "B"]) Writable [] in
  let w' := snd (publish_all newsroom nl w) in
  count is_pause (events_since w w') = count is_publish (events_since w w')
  /\ (count is_publish (events_since w w') <= length nl)%nat
  /\ fst (publish_all newsroom nl w) = Return tt.
Proof.
  intros nl w.
  destruct (publish_all_paced newsroom nl w (list_to_set [str "B"]))
    as (Hp1 & Hp2 & Hret); [reflexivity|].
  split; [exact Hp1|]. split; [exact Hp2|]. apply Hret.
  - discriminate.
  - constructor; [right; by eexists|].
    constructor; [left; apply elem_of_list_to_set, list_elem_of_here|].
    constructor.
Defined.

(** X27. When the future of a new entry times out, or holds an exception
    that its task raised in the run, the run still returns; the entry is
    handed to the publisher with no image and the summary "Failed to fetch
    summary.", and the publisher sends it as text at once, without a probe
    and without a photo call.  The other entries keep what their own tasks
    found: every new entry whose future did not time out and holds a result
    is handed to the publisher with the image and the summary of that
    result.  (Titles are distinct, the ledger loads, and its writes do not
    fail behind the open.) *)
Theorem failed_enrichment_degrades net cfg s w nl w1 P i n :
  fetch_anime_news net cfg w = (Return nl, w1) ->
  fst (load_posted_titles w) = Return P ->
  writable w <> FailsAfterOpen ->
  NoDup (List.map title nl) ->
  nl !! i = Some n ->
  title n ∉ P ->
  let futures := enrichment_futures net s nl w1 in
  (timed_out s (rank P nl i) = true
   \/ exists e, futures !! rank P nl i = Some (Raise e)) ->
  exists w' pre ok post,
    run_once net cfg s w = (Return tt, w')
    /\ events_since w w'
       = pre
         ++ EvPublish (title n) None (str "Failed to fetch summary.")
         :: EvSendMessage (title n)
              (build_caption (title n) (str "Failed to fetch summary.")) ok
         :: post
    /\ forall j m result,
         nl !! j = Some m ->
         title m ∉ P ->
         timed_out s (rank P nl j) = false ->
         futures !! rank P nl j = Some (Return result) ->
         EvPublish (title m) (image result) (summary result)
         ∈ events_since w w'.
Proof.
  intros Hfetch HP%load_titles_of Hwr Hnd Hi Hnew F Hfail.
  destruct (run_once_spec net cfg s w nl w1 P Hfetch HP)
    as (evs1 & evs2 & evs3 & f' & r & Hrun & Hq1 & Hq2 & Hpr).
  fold F in Hpr.
  assert (r = Return tt) as ->.
  { eapply publish_run_returns; [exact Hpr|exact HP|].
    eapply Forall_impl; [apply enrich_details|]. intros m [?|?]; auto. }
  assert (Hnd' : NoDup (List.map title (enrich P s F 0 nl)))
    by by rewrite enrich_titles.
  assert (Hsettle : settle s F (rank P nl i) = failed_details).
  { unfold settle. destruct Hfail as [->|[e ->]]; [reflexivity|].
    by destruct (timed_out s (rank P nl i)). }
  pose proof (enrich_lookup P s F nl i n 0 Hi Hnew) as Hi'.
  simpl in Hi'. rewrite Hsettle in Hi'.
  destruct (publish_run_block _ _ _ _ _ _ Hpr P i _ eq_refl HP Hnd' Hi' Hnew)
    as (d & f_i & pre & es & post & Hd & -> & Hes).
  injection Hd as <-. cbn [image summary failed_details] in Hes.
  assert (Hshape : exists ok tail,
            es = EvPublish (title n) None (str "Failed to fetch summary.")
                 :: EvSendMessage (title n)
                      (build_caption (title n)
                         (str "Failed to fetch summary.")) ok
                 :: tail).
  { inversion Hes as [url E|url ok E|url ok E|ok E]; try discriminate E.
    by eexists _, _. }
  destruct Hshape as (ok & tail & Hshape).
  set (subs := List.map _ (new_entries P 0 nl)) in *.
  eexists. exists (evs1 ++ subs ++ evs2 ++ pre), ok,
    (tail ++ EvSleep 2 :: post).
  split; [exact Hrun|].
  erewrite events_since_app by reflexivity.
  split.
  - rewrite Hshape. by rewrite <- !app_assoc.
  - intros j m result Hj Hmnew Hto Hres.
    pose proof (enrich_lookup P s F nl j m 0 Hj Hmnew) as Hj'.
    simpl in Hj'.
    assert (Hsettle' : settle s F (rank P nl j) = result).
    { unfold settle. by rewrite Hto, Hres. }
    rewrite Hsettle' in Hj'.
    destruct (publish_run_block _ _ _ _ _ _ Hpr P j _ eq_refl HP Hnd' Hj'
                Hmnew)
      as (dm & f_j & prem & esm & postm & Hdm & Em & Hesm).
    injection Hdm as <-. rewrite Em.
    rewrite !elem_of_app. do 4 right. left.
    exact (publish_head_in _ _ _ _ _ _ Hesm).
Qed.

Lemma failed_enrichment_degrades_witness :
  let futures :=
    enrichment_futures page_b_rejected out_of_order abc_news
      (snd (fetch_anime_news page_b_rejected any_day fresh)) in
  futures !! 1%nat = Some (Raise RetryError)
  /\ exists w' pre ok post,
       run_once page_b_rejected any_day out_of_order fresh = (Return tt, w')
       /\ events_since fresh w'
          = pre
            ++ EvPublish (str "B") None (str "Failed to fetch summary.")
            :: EvSendMessage (str "B")
                 (build_caption (str "B") (str "Failed to fetch summary."))
                 ok
            :: post
       /\ forall j m result,
            abc_news !! j = Some m ->
            title m ∉ (∅ : gset pystr) ->
            timed_out out_of_order (rank ∅ abc_news j) = false ->
            futures !! rank ∅ abc_news j = Some (Return result) ->
            EvPublish (title m) (image result) (summary result)
            ∈ events_since fresh w'.
Proof.
  intros futures.
  assert (Hraise : futures !! 1%nat = Some (Raise RetryError))
    by (vm_compute; reflexivity).
  split; [exact Hraise|].
  apply (failed_enrichment_degrades page_b_rejected any_day out_of_order
           fresh abc_news
           (snd (fetch_anime_news page_b_rejected any_day fresh))
           ∅ 1%nat (entry "B" "/b" card_b)).
  - vm_compute. reflexivity.
  - reflexivity.
  - discriminate.
  - apply (bool_decide_unpack _). vm_compute. exact I.
  - reflexivity.
  - apply not_elem_of_empty.
  - right. exists RetryError. exact Hraise.
Defined.

(** ** The older script *)

Lemma legacy_escape_length s :
  length (Legacy.escape_markdown s)
  = (length s + length (List.filter Legacy.special s))%nat.
Proof.
  unfold Legacy.escape_markdown.
  induction s as [|c s IH]; [reflexivity|].
  cbn [flat_map List.filter]. rewrite length_app, IH.
  destruct (Legacy.special c); simpl; lia.
Qed.

Lemma legacy_escape_fixed_iff s :
  Legacy.escape_markdown s = s <-> Forall (λ c, Legacy.special c = false) s.
Proof.
  split.
  - intros E. apply (f_equal length) in E.
    rewrite legacy_escape_length in E.
    assert (Hnone : List.filter Legacy.special s = [])
      by (destruct (List.filter Legacy.special s); [done|simpl in E; lia]).
    clear E. induction s as [|c s IH]; [constructor|].
    simpl in Hnone. destruct (Legacy.special c) eqn:Ec; [discriminate|].
    constructor; auto.
  - unfold Legacy.escape_markdown.
    induction 1 as [|c s Hc _ IH]; [reflexivity|].
    cbn [flat_map]. rewrite Hc, IH. reflexivity.
Qed.

(** X24. [escape_markdown] adds one backslash for every character of its
    class and nothing else, so it returns a text as it is exactly when the
    text has none of these characters. *)
Theorem legacy_escape_markdown_fixed s :
  len (Legacy.escape_markdown s)
  = len s + len (List.filter Legacy.special s)
  /\ (Legacy.escape_markdown s = s
      <-> Forall (λ c, Legacy.special c = false) s).
Proof.
  split; [unfold len; rewrite legacy_escape_length; lia|].
  apply legacy_escape_fixed_iff.
Qed.








